(** * Verification of the background extraction pipeline, prompt composer and
    response sanitizer of the private AI companion app.

    Sources: [src/services/BackgroundAgent.ts] (BackgroundAgent, LLMService)
    and [src/services/SQLiteService.ts] (the record store).

    Modelling conventions.
    - A JavaScript string is a [list ascii]; a character is read as the
      code unit 0..255 (Latin-1), so [toLowerCase], [trim] and the regex
      class [\s] are written out for that range.
    - Asynchronous store calls are sequential steps of a state/error monad
      [M] over a [World] holding the SQLite tables, the clock, the
      console error log and a list of pending store faults: every store
      call consumes one entry of [faults], and [true] makes that call throw
      (a closed database, an I/O error, ...). *)

From Stdlib Require Import List Bool Arith ZArith QArith Ascii String Lia.
From Stdlib Require Import Permutation Sorted.
Import ListNotations.
Set Warnings "-register-all".
Open Scope Z_scope.
Open Scope list_scope.

(* ------------------------------------------------------------------ *)
(** ** JavaScript strings *)

Definition str := list ascii.

(** String literals of the source. *)
Definition L (s : string) : str := list_ascii_of_string s.

(** Literals holding double quotes (JSON texts) are written with [']
    in place of the double quote. *)
Definition J (s : string) : str :=
  map (fun c => if Ascii.eqb c "'"%char then ascii_of_nat 34 else c)
      (list_ascii_of_string s).

Definition code (c : ascii) : nat := nat_of_ascii c.

Definition char_eqb (a b : ascii) : bool := Ascii.eqb a b.

Fixpoint str_eqb (a b : str) : bool :=
  match a, b with
  | [], [] => true
  | x :: a', y :: b' => char_eqb x y && str_eqb a' b'
  | _, _ => false
  end.

(** [String.prototype.toLowerCase] on the Latin-1 range. *)
Definition lower_char (c : ascii) : ascii :=
  let n := code c in
  if (Nat.leb 65 n && Nat.leb n 90)
     || (Nat.leb 192 n && Nat.leb n 222 && negb (Nat.eqb n 215))
  then ascii_of_nat (n + 32)%nat else c.

Definition toLowerCase (s : str) : str := map lower_char s.

(** The JavaScript [WhiteSpace]/[LineTerminator] set (regex [\s], [trim])
    restricted to 0..255: TAB, LF, VT, FF, CR, SPACE, NBSP. *)
Definition is_js_space (c : ascii) : bool :=
  let n := code c in
  (Nat.leb 9 n && Nat.leb n 13) || Nat.eqb n 32 || Nat.eqb n 160.

Fixpoint trimStart (s : str) : str :=
  match s with
  | c :: r => if is_js_space c then trimStart r else s
  | [] => []
  end.

Definition trimEnd (s : str) : str := rev (trimStart (rev s)).

Definition trim (s : str) : str := trimEnd (trimStart s).

Fixpoint prefixb (p s : str) : bool :=
  match p, s with
  | [], _ => true
  | x :: p', y :: s' => char_eqb x y && prefixb p' s'
  | _ :: _, [] => false
  end.

(** [a.includes(b)]. *)
Fixpoint includes (a b : str) : bool :=
  prefixb b a || match a with [] => false | _ :: a' => includes a' b end.

Definition nl : ascii := ascii_of_nat 10.

(* ------------------------------------------------------------------ *)
(** ** Record store rows ([SQLiteService.ts] interfaces) *)

Inductive Sender := SUser | SAssistant.

Module Messages.
Record t := mk {
    id : Z; content : str; sender : Sender; timestamp : Z;
    context_json : option str }.
End Messages.

Inductive Creator := CUser | CVi.
Inductive Frequency := Daily | Weekly | Monthly.

Module Notes.
Record t := mk {
    id : Z; title : str; body : str; created_by : Creator;
    tags : option str; created_at : Z }.
End Notes.

Module Lists.
Record t := mk { id : Z; title : str; type : str; created_at : Z }.
End Lists.

Module ListItems.
Record t := mk {
    id : Z; list_id : Z; content : str; is_completed : bool;
    created_at : Z }.
End ListItems.

Module Goals.
Record t := mk {
    id : Z; title : str; frequency : Frequency; streak_count : Z;
    last_completed_date : option Z; target_count : option Z;
    created_at : Z }.
End Goals.

Module MindmapNodes.
Record t := mk {
    id : Z; label : str; category : str; confidence_score : Q;
    linked_node_id : option Z; created_at : Z }.
End MindmapNodes.

Module User.
Record t := mk {
    id : Z; name : str; nickname : option str; role : option str;
    age_group : option str; gender : option str; traits_json : str;
    created_at : Z }.
End User.

(** Errors a store call or the analysis call can raise. *)
Inductive Exn :=
| SqliteError                 (* failing database call *)
| ConstraintFailed (col : str) (* a CHECK constraint of the schema *)
| LLMError.                   (* the completion engine threw *)

(** The world the services act on: the tables of [vichar.db] (each in
    rowid order), the wall clock (used for [CURRENT_TIMESTAMP] and
    [new Date()]), the faults of the coming store calls and the lines
    written by [console.error]. *)
Record World := mkWorld {
  users : list User.t;
  messages : list Messages.t;
  notes : list Notes.t;
  lists : list Lists.t;
  listItems : list ListItems.t;
  goals : list Goals.t;
  mindmapNodes : list MindmapNodes.t;
  clock : Z;
  faults : list bool;
  console : list Exn }.

Definition set_notes x w := mkWorld (users w) (messages w) x (lists w)
  (listItems w) (goals w) (mindmapNodes w) (clock w) (faults w) (console w).
Definition set_lists x w := mkWorld (users w) (messages w) (notes w) x
  (listItems w) (goals w) (mindmapNodes w) (clock w) (faults w) (console w).
Definition set_listItems x w := mkWorld (users w) (messages w) (notes w)
  (lists w) x (goals w) (mindmapNodes w) (clock w) (faults w) (console w).
Definition set_goals x w := mkWorld (users w) (messages w) (notes w)
  (lists w) (listItems w) x (mindmapNodes w) (clock w) (faults w) (console w).
Definition set_mindmapNodes x w := mkWorld (users w) (messages w) (notes w)
  (lists w) (listItems w) (goals w) x (clock w) (faults w) (console w).
Definition set_faults x w := mkWorld (users w) (messages w) (notes w)
  (lists w) (listItems w) (goals w) (mindmapNodes w) (clock w) x (console w).
Definition set_console x w := mkWorld (users w) (messages w) (notes w)
  (lists w) (listItems w) (goals w) (mindmapNodes w) (clock w) (faults w) x.

(* ------------------------------------------------------------------ *)
(** ** The state/error monad of [async] code *)

Definition M (A : Type) : Type := World -> (Exn + A) * World.

Definition ret {A} (a : A) : M A := fun w => (inr a, w).
Definition throw {A} (e : Exn) : M A := fun w => (inl e, w).
Definition bind {A B} (m : M A) (k : A -> M B) : M B :=
  fun w => match m w with
           | (inl e, w') => (inl e, w')
           | (inr a, w') => k a w'
           end.
Definition get : M World := fun w => (inr w, w).
Definition put (w : World) : M unit := fun _ => (inr tt, w).

Notation "x <- c1 ;; c2" := (bind c1 (fun x => c2))
  (at level 61, c1 at next level, right associativity).
Notation "c1 ;; c2" := (bind c1 (fun _ => c2))
  (at level 61, right associativity).

(** [for (const x of xs) { await f(x); }] *)
Fixpoint for_each {A} (f : A -> M unit) (xs : list A) : M unit :=
  match xs with
  | [] => ret tt
  | x :: xs' => f x ;; for_each f xs'
  end.

(* ------------------------------------------------------------------ *)
(** ** The record store ([SQLiteService]) *)

(** Every call starts with [if (!this.db) throw ...] and then runs one
    statement; either may fail. *)
Definition db_call : M unit := fun w =>
  match faults w with
  | b :: r => (if b then inl SqliteError else inr tt, set_faults r w)
  | [] => (inr tt, w)
  end.

(** [INTEGER PRIMARY KEY AUTOINCREMENT] (no row is ever deleted). *)
Definition next_id (ids : list Z) : Z := 1 + fold_right Z.max 0 ids.

(** [ORDER BY created_at]: a stable insertion sort, rows with equal
    timestamps stay in rowid order. *)
Fixpoint insert_by {A} (le : A -> A -> bool) (x : A) (l : list A) :=
  match l with
  | [] => [x]
  | y :: l' => if le x y then x :: l else y :: insert_by le x l'
  end.
Fixpoint sort_by {A} (le : A -> A -> bool) (l : list A) : list A :=
  match l with
  | [] => []
  | x :: l' => insert_by le x (sort_by le l')
  end.
Definition order_asc {A} (key : A -> Z) := sort_by (fun x y => key x <=? key y)%Z.
Definition order_desc {A} (key : A -> Z) := sort_by (fun x y => key y <=? key x)%Z.

Definition addNote (title body : str) (createdBy : Creator) : M Z :=
  db_call ;; w <- get ;;
  let i := next_id (map Notes.id (notes w)) in
  put (set_notes (notes w ++ [Notes.mk i title body createdBy None (clock w)]) w) ;;
  ret i.

Definition createList (title type : str) : M Z :=
  db_call ;; w <- get ;;
  let i := next_id (map Lists.id (lists w)) in
  put (set_lists (lists w ++ [Lists.mk i title type (clock w)]) w) ;;
  ret i.

Definition getAllLists : M (list Lists.t) :=
  db_call ;; w <- get ;; ret (order_desc Lists.created_at (lists w)).

Definition addListItem (listId : Z) (content : str) : M Z :=
  db_call ;; w <- get ;;
  let i := next_id (map ListItems.id (listItems w)) in
  put (set_listItems
         (listItems w ++ [ListItems.mk i listId content false (clock w)]) w) ;;
  ret i.

Definition getListItems (listId : Z) : M (list ListItems.t) :=
  db_call ;; w <- get ;;
  ret (order_asc ListItems.created_at
         (filter (fun it => (ListItems.list_id it =? listId)%Z) (listItems w))).

Definition getAllGoals : M (list Goals.t) :=
  db_call ;; w <- get ;; ret (order_desc Goals.created_at (goals w)).

(** [UPDATE Goals SET streak_count = streak_count + 1,
     last_completed_date = ? WHERE id = ?] *)
Definition bump_streak (now : Z) (g : Goals.t) : Goals.t :=
  Goals.mk (Goals.id g) (Goals.title g) (Goals.frequency g)
    (Goals.streak_count g + 1) (Some now) (Goals.target_count g)
    (Goals.created_at g).

Definition updateGoalStreak (goalId : Z) : M unit :=
  db_call ;; w <- get ;;
  put (set_goals (map (fun g => if (Goals.id g =? goalId)%Z
                                then bump_streak (clock w) g else g) (goals w)) w).

(** [CHECK(category IN ('values', 'goals', 'personality', 'facts'))] *)
Definition valid_category (c : str) : bool :=
  existsb (str_eqb c) [L "values"; L "goals"; L "personality"; L "facts"].

Definition addMindmapNode (label category : str) (confidenceScore : Q) : M Z :=
  db_call ;;
  if valid_category category then
    w <- get ;;
    let i := next_id (map MindmapNodes.id (mindmapNodes w)) in
    put (set_mindmapNodes (mindmapNodes w ++
      [MindmapNodes.mk i label category confidenceScore None (clock w)]) w) ;;
    ret i
  else throw (ConstraintFailed (L "category")).

Definition getAllMindmapNodes : M (list MindmapNodes.t) :=
  db_call ;; w <- get ;; ret (order_asc MindmapNodes.created_at (mindmapNodes w)).

(* ------------------------------------------------------------------ *)
(** ** Prompt composer: [LLMService.buildChatMLPrompt] *)

Definition role_of (s : Sender) : str :=
  match s with SUser => L "user" | SAssistant => L "assistant" end.

Definition im_start : str := L "<|im_start|>".
Definition im_end : str := L "<|im_end|>".

(** [`<|im_start|>${role}\n${content}<|im_end|>\n`] *)
Definition turn_block (role content : str) : str :=
  im_start ++ role ++ [nl] ++ content ++ im_end ++ [nl].

(** [Array.prototype.slice(-k)]. *)
Definition slice_last {A} (k : nat) (l : list A) : list A :=
  skipn (List.length l - k)%nat l.

Definition buildChatMLPrompt (systemPrompt userMessage : str)
    (conversationHistory : list Messages.t) : str :=
  let prompt := turn_block (L "system") systemPrompt in
  let recentMessages := slice_last 6 conversationHistory in
  let prompt := fold_left
      (fun p msg => p ++ turn_block (role_of (Messages.sender msg))
                                    (Messages.content msg))
      recentMessages prompt in
  let prompt := prompt ++ turn_block (L "user") userMessage in
  prompt ++ im_start ++ L "assistant" ++ [nl].

(* ------------------------------------------------------------------ *)
(** ** [BackgroundAgent.applyAnalysisResults]

    Items follow the declared [AnalysisResult] interface; the fields the
    code tests for truthiness ([note.title && note.body],
    [node.label && node.category], [node.confidence || 0.8]) may be absent
    ([None]). *)

Module NoteIn.
Record t := mk { title : option str; body : option str }.
End NoteIn.

Module ListGroup.
Record t := mk { listName : str; items : list str }.
End ListGroup.

Module GoalCompletion.
Record t := mk { title : str }.
End GoalCompletion.

Module NodeIn.
Record t := mk {
    label : option str; category : option str; confidence : option Q }.
End NodeIn.

Module Analysis.
Record t := mk {
    notes : list NoteIn.t;
    listItems : list ListGroup.t;
    completedGoals : list GoalCompletion.t;
    mindmapNodes : list NodeIn.t }.
End Analysis.

(** Truthiness of a possibly absent string. *)
Definition truthy (o : option str) : bool :=
  match o with Some (_ :: _) => true | _ => false end.

(** [node.confidence || 0.8] *)
Definition confidence_or_default (c : option Q) : Q :=
  match c with
  | Some q => if Qeq_bool q 0 then (4 # 5)%Q else q
  | None => (4 # 5)%Q
  end.

(** [.replace(/\s+/g, '_')]: every maximal whitespace run becomes one
    underscore. *)
Fixpoint replace_ws_runs (in_run : bool) (s : str) : str :=
  match s with
  | [] => []
  | c :: r =>
      if is_js_space c
      then if in_run then replace_ws_runs true r
           else "_"%char :: replace_ws_runs true r
      else c :: replace_ws_runs false r
  end.

Definition list_type_of (listName : str) : str :=
  replace_ws_runs false (toLowerCase listName).

(** [a.toLowerCase().includes(b.toLowerCase()) ||
     b.toLowerCase().includes(a.toLowerCase())] *)
Definition fuzzy_match (a b : str) : bool :=
  includes (toLowerCase a) (toLowerCase b)
  || includes (toLowerCase b) (toLowerCase a).

Definition ci_eqb (a b : str) : bool := str_eqb (toLowerCase a) (toLowerCase b).

(** 1. Add Notes *)
Definition apply_note (note : NoteIn.t) : M unit :=
  match NoteIn.title note, NoteIn.body note with
  | Some t, Some b =>
      if truthy (Some t) && truthy (Some b)
      then addNote t b CVi ;; ret tt else ret tt
  | _, _ => ret tt
  end.

(** 2. Add List Items, the body for a matched list *)
Definition add_to_existing (targetList : Lists.t) (item : str) : M unit :=
  existingItems <- getListItems (Lists.id targetList) ;;
  let isDuplicate :=
    existsb (fun existing => ci_eqb (ListItems.content existing) item)
      existingItems in
  if negb isDuplicate
  then addListItem (Lists.id targetList) item ;; ret tt
  else ret tt.

Definition apply_list_group (listGroup : ListGroup.t) : M unit :=
  allLists <- getAllLists ;;
  match find (fun l => fuzzy_match (Lists.title l) (ListGroup.listName listGroup))
             allLists with
  | Some targetList =>
      for_each (add_to_existing targetList) (ListGroup.items listGroup)
  | None =>
      newListId <- createList (ListGroup.listName listGroup)
                              (list_type_of (ListGroup.listName listGroup)) ;;
      for_each (fun item => addListItem newListId item ;; ret tt)
               (ListGroup.items listGroup)
  end.

(** 3. Update Completed Goals *)
Definition apply_goal (goalCompletion : GoalCompletion.t) : M unit :=
  allGoals <- getAllGoals ;;
  match find (fun g => fuzzy_match (Goals.title g) (GoalCompletion.title goalCompletion))
             allGoals with
  | Some targetGoal => updateGoalStreak (Goals.id targetGoal)
  | None => ret tt
  end.

(** 4. Add Mindmap Nodes *)
Definition apply_node (node : NodeIn.t) : M unit :=
  match NodeIn.label node, NodeIn.category node with
  | Some label, Some category =>
      if truthy (Some label) && truthy (Some category) then
        existingNodes <- getAllMindmapNodes ;;
        let isDuplicate :=
          existsb (fun existing => ci_eqb (MindmapNodes.label existing) label)
            existingNodes in
        if negb isDuplicate
        then addMindmapNode label category
               (confidence_or_default (NodeIn.confidence node)) ;; ret tt
        else ret tt
      else ret tt
  | _, _ => ret tt
  end.

Definition applyAnalysisResults (analysis : Analysis.t) : M unit :=
  for_each apply_note (Analysis.notes analysis) ;;
  for_each apply_list_group (Analysis.listItems analysis) ;;
  for_each apply_goal (Analysis.completedGoals analysis) ;;
  for_each apply_node (Analysis.mindmapNodes analysis).

(* ------------------------------------------------------------------ *)
(** ** [JSON.parse] (ECMA-404) *)

(** String contents are UTF-16 code units. Numbers keep their lexeme. *)
Inductive json :=
| JNull
| JBool (b : bool)
| JNum (lexeme : str)
| JStr (s : list N)
| JArr (l : list json)
| JObj (kvs : list (list N * json)).

Fixpoint units_eqb (a b : list N) : bool :=
  match a, b with
  | [], [] => true
  | x :: a', y :: b' => N.eqb x y && units_eqb a' b'
  | _, _ => false
  end.

Definition units (s : str) : list N := map N_of_ascii s.

(** JSON whitespace: SPACE, TAB, LF, CR. *)
Definition is_json_ws (c : ascii) : bool :=
  let n := code c in Nat.eqb n 32 || Nat.eqb n 9 || Nat.eqb n 10 || Nat.eqb n 13.

Fixpoint json_ws (s : str) : str :=
  match s with
  | c :: r => if is_json_ws c then json_ws r else s
  | [] => []
  end.

Definition is_digit (c : ascii) : bool := Nat.leb 48 (code c) && Nat.leb (code c) 57.

Definition hex_val (c : ascii) : option N :=
  let n := code c in
  if Nat.leb 48 n && Nat.leb n 57 then Some (N.of_nat (n - 48))
  else if Nat.leb 97 n && Nat.leb n 102 then Some (N.of_nat (n - 87))
  else if Nat.leb 65 n && Nat.leb n 70 then Some (N.of_nat (n - 55))
  else None.

Definition hex4 (a b c d : ascii) : option N :=
  match hex_val a, hex_val b, hex_val c, hex_val d with
  | Some x, Some y, Some z, Some t => Some (((x * 16 + y) * 16 + z) * 16 + t)%N
  | _, _, _, _ => None
  end.

Definition simple_escape (e : ascii) : option N :=
  match code e with
  | 34 => Some 34%N | 92 => Some 92%N | 47 => Some 47%N
  | 98 => Some 8%N | 102 => Some 12%N | 110 => Some 10%N
  | 114 => Some 13%N | 116 => Some 9%N
  | _ => None
  end%nat.

(** The characters after an opening quote, up to and including the
    closing quote. *)
Fixpoint string_body (s : str) : option (list N * str) :=
  match s with
  | [] => None
  | c :: r =>
      if Nat.eqb (code c) 34 then Some ([], r)
      else if Nat.eqb (code c) 92 then
        match r with
        | e :: r1 =>
            if Nat.eqb (code e) 117 then
              match r1 with
              | a :: b :: c' :: d :: r2 =>
                  match hex4 a b c' d, string_body r2 with
                  | Some u, Some (cs, r3) => Some (u :: cs, r3)
                  | _, _ => None
                  end
              | _ => None
              end
            else
              match simple_escape e, string_body r1 with
              | Some u, Some (cs, r3) => Some (u :: cs, r3)
              | _, _ => None
              end
        | [] => None
        end
      else if Nat.ltb (code c) 32 then None
      else match string_body r with
           | Some (cs, r3) => Some (N_of_ascii c :: cs, r3)
           | None => None
           end
  end.

Fixpoint span_digits (s : str) : str * str :=
  match s with
  | c :: r => if is_digit c then let (ds, r') := span_digits r in (c :: ds, r')
              else ([], s)
  | [] => ([], [])
  end.

(** [int = "0" / digit1-9 *DIGIT] *)
Definition number_int (s : str) : option (str * str) :=
  match s with
  | c :: r =>
      if Nat.eqb (code c) 48 then Some ([c], r)
      else if is_digit c then let (ds, r') := span_digits r in Some (c :: ds, r')
      else None
  | [] => None
  end.

(** [frac = "." 1*DIGIT]; an incomplete fraction is left unread (and is
    then rejected by the context, which never accepts ".") *)
Definition number_frac (s : str) : str * str :=
  match s with
  | c :: r =>
      if Nat.eqb (code c) 46 then
        match span_digits r with
        | ([], _) => ([], s)
        | (ds, r') => (c :: ds, r')
        end
      else ([], s)
  | [] => ([], [])
  end.

(** [exp = ("e" / "E") ["-" / "+"] 1*DIGIT], same convention. *)
Definition number_exp (s : str) : str * str :=
  match s with
  | c :: r =>
      if Nat.eqb (code c) 101 || Nat.eqb (code c) 69 then
        let (sg, r1) := match r with
                        | d :: r2 => if Nat.eqb (code d) 43 || Nat.eqb (code d) 45
                                     then ([d], r2) else ([], r)
                        | [] => ([], [])
                        end in
        match span_digits r1 with
        | ([], _) => ([], s)
        | (ds, r') => (c :: sg ++ ds, r')
        end
      else ([], s)
  | [] => ([], [])
  end.

Definition number (s : str) : option (str * str) :=
  let (minus, s1) := match s with
                     | c :: r => if Nat.eqb (code c) 45 then ([c], r) else ([], s)
                     | [] => ([], [])
                     end in
  match number_int s1 with
  | Some (i, s2) =>
      let (f, s3) := number_frac s2 in
      let (e, s4) := number_exp s3 in
      Some (minus ++ i ++ f ++ e, s4)
  | None => None
  end.

Definition scalar (s : str) : option (json * str) :=
  if prefixb (L "true") s then Some (JBool true, skipn 4 s)
  else if prefixb (L "false") s then Some (JBool false, skipn 5 s)
  else if prefixb (L "null") s then Some (JNull, skipn 4 s)
  else match number s with
       | Some (lx, r) => Some (JNum lx, r)
       | None => None
       end.

(** Recursive descent; [n] bounds the depth of the call chain, which is at
    most twice the length of the text (see [JSON_parse]). *)
Fixpoint value (n : nat) (s : str) : option (json * str) :=
  match n with
  | O => None
  | S n' =>
      match json_ws s with
      | c :: r =>
          if Nat.eqb (code c) 91 then
            match json_ws r with
            | d :: r' => if Nat.eqb (code d) 93 then Some (JArr [], r')
                         else elements n' r []
            | [] => None
            end
          else if Nat.eqb (code c) 123 then
            match json_ws r with
            | d :: r' => if Nat.eqb (code d) 125 then Some (JObj [], r')
                         else members n' r []
            | [] => None
            end
          else if Nat.eqb (code c) 34 then
            match string_body r with
            | Some (cs, r') => Some (JStr cs, r')
            | None => None
            end
          else scalar (c :: r)
      | [] => None
      end
  end
with elements (n : nat) (s : str) (acc : list json) : option (json * str) :=
  match n with
  | O => None
  | S n' =>
      match value n' s with
      | Some (v, r) =>
          match json_ws r with
          | c :: r' =>
              if Nat.eqb (code c) 44 then elements n' r' (v :: acc)
              else if Nat.eqb (code c) 93 then Some (JArr (rev (v :: acc)), r')
              else None
          | [] => None
          end
      | None => None
      end
  end
with members (n : nat) (s : str) (acc : list (list N * json))
    : option (json * str) :=
  match n with
  | O => None
  | S n' =>
      match json_ws s with
      | q :: r =>
          if Nat.eqb (code q) 34 then
            match string_body r with
            | Some (k, r1) =>
                match json_ws r1 with
                | c :: r2 =>
                    if Nat.eqb (code c) 58 then
                      match value n' r2 with
                      | Some (v, r3) =>
                          match json_ws r3 with
                          | d :: r4 =>
                              if Nat.eqb (code d) 44 then members n' r4 ((k, v) :: acc)
                              else if Nat.eqb (code d) 125
                              then Some (JObj (rev ((k, v) :: acc)), r4)
                              else None
                          | [] => None
                          end
                      | None => None
                      end
                    else None
                | [] => None
                end
            | None => None
            end
          else None
      | [] => None
      end
  end.

(** [JSON.parse(text)]: [None] is a thrown [SyntaxError]. *)
Definition JSON_parse (text : str) : option json :=
  match value (2 * List.length text + 2)%nat text with
  | Some (v, r) => match json_ws r with [] => Some v | _ => None end
  | None => None
  end.

(** [v.key]: [None] is the [TypeError] of reading a property of [null];
    [Some None] is [undefined]. A duplicated key reads its last value. *)
Definition get_prop (v : json) (key : str) : option (option json) :=
  match v with
  | JNull => None
  | JObj kvs =>
      Some (fold_left (fun acc kv => if units_eqb (fst kv) (units key)
                                     then Some (snd kv) else acc) kvs None)
  | _ => Some None
  end.

(** [Array.isArray(x) ? x : []] *)
Definition array_or_empty (x : option json) : list json :=
  match x with Some (JArr l) => l | _ => [] end.

(* ------------------------------------------------------------------ *)
(** ** [BackgroundAgent.parseAnalysisResult] *)

Module Parsed.
Record t := mk {
    notes : list json; listItems : list json;
    completedGoals : list json; mindmapNodes : list json }.
End Parsed.

(** Regex flag [i] on an ASCII pattern: only ASCII letters fold. *)
Definition ascii_lower (c : ascii) : ascii :=
  if Nat.leb 65 (code c) && Nat.leb (code c) 90
  then ascii_of_nat (code c + 32) else c.

Fixpoint prefix_ci (p s : str) : bool :=
  match p, s with
  | [], _ => true
  | x :: p', y :: s' => char_eqb (ascii_lower x) (ascii_lower y) && prefix_ci p' s'
  | _ :: _, [] => false
  end.

(** [.replace(/^```json\n?/i, '')] *)
Definition strip_fence_open (s : str) : str :=
  if prefix_ci (L "```json") s then
    match skipn 7 s with
    | c :: r => if char_eqb c nl then r else c :: r
    | [] => []
    end
  else s.

(** [.replace(/\n?```$/, '')] *)
Definition strip_fence_close (s : str) : str :=
  let r := rev s in
  if prefixb (L "```") r then
    match skipn 3 r with
    | c :: r' => if char_eqb c nl then rev r' else rev (c :: r')
    | [] => []
    end
  else s.

(** The text handed to [JSON.parse]: trim, strip the fences, trim. *)
Definition cleanJson_of (rawJson : str) : str :=
  trim (strip_fence_close (strip_fence_open (trim rawJson))).

(** [Array.isArray(parsed.key) ? parsed.key : []] for a non-null [parsed]. *)
Definition coerce_key (parsed : json) (key : str) : list json :=
  match get_prop parsed key with Some x => array_or_empty x | None => [] end.

Definition parseAnalysisResult (rawJson : str) : option Parsed.t :=
  let cleanJson := cleanJson_of rawJson in
  match JSON_parse cleanJson with
  | None => None
  | Some parsed =>
      match get_prop parsed (L "notes"), get_prop parsed (L "listItems"),
            get_prop parsed (L "completedGoals"), get_prop parsed (L "mindmapNodes") with
      | Some a, Some b, Some c, Some d =>
          Some (Parsed.mk (array_or_empty a) (array_or_empty b)
                          (array_or_empty c) (array_or_empty d))
      | _, _, _, _ => None
      end
  end.

(* ------------------------------------------------------------------ *)
(** ** [BackgroundAgent.processRecentConversations] *)

Record Agent := mkAgent {
  isProcessing : bool;
  lastProcessedMessageId : Z }.

(** The completion engine as seen by the pipeline: [llmService.isReady()]
    and [llmService.analyzeConversation(msgs)] ([None]: it threw). *)
Record Engine := mkEngine {
  isReady : bool;
  analyzeConversation : list Messages.t -> option str }.

(** [SELECT * FROM Messages ORDER BY timestamp ASC] *)
Definition getAllMessages : M (list Messages.t) :=
  db_call ;; w <- get ;; ret (order_asc Messages.timestamp (messages w)).

(** [x || 0] on an integer. *)
Definition or0 (x : Z) : Z := if (x =? 0)%Z then 0 else x.

Definition newMessagesSince (mark : Z) (allMessages : list Messages.t) :=
  filter (fun msg => (mark <? or0 (Messages.id msg))%Z) allMessages.

Definition dummy_message : Messages.t := Messages.mk 0 [] SUser 0 None.

Section Pipeline.

(** The apply step, on the parser's result. The mark logic below holds
    whatever it does to the store. *)
Variable apply : Parsed.t -> M unit.

(** The [try] block; it yields the new value of
    [lastProcessedMessageId]. *)
Definition process_body (llm : Engine) (mark : Z) : M Z :=
  allMessages <- getAllMessages ;;
  if Nat.eqb (List.length allMessages) 0 then ret mark else
  let newMessages := newMessagesSince mark allMessages in
  if Nat.ltb (List.length newMessages) 2 then ret mark else
  match analyzeConversation llm newMessages with
  | None => throw LLMError
  | Some rawAnalysis =>
      match parseAnalysisResult rawAnalysis with
      | Some analysis =>
          apply analysis ;;
          let lastMessage := last newMessages dummy_message in
          ret (or0 (Messages.id lastMessage))
      | None => ret mark
      end
  end.

(** Guards, [try]/[catch] (log with [console.error]) and [finally]. *)
Definition processRecentConversations (llm : Engine) (ag : Agent) (w : World)
    : Agent * World :=
  if isProcessing ag then (ag, w)
  else if negb (isReady llm) then (ag, w)
  else
    let mark := lastProcessedMessageId ag in
    match process_body llm mark w with
    | (inr mark', w') => (mkAgent false mark', w')
    | (inl e, w') => (mkAgent false mark, set_console (console w' ++ [e]) w')
    end.

(** A sequence of runs: the agent persists, the world and the engine
    may change in between (new chat turns, model reloads). *)
Fixpoint run_all (ag : Agent) (runs : list (Engine * World)) : list Agent :=
  match runs with
  | [] => []
  | (llm, w) :: rest =>
      let ag' := fst (processRecentConversations llm ag w) in
      ag' :: run_all ag' rest
  end.

End Pipeline.

(* ------------------------------------------------------------------ *)
(** ** Response sanitizer: [LLMService.cleanResponse],
    [extractSuggestions], [removeSuggestions] *)

Definition think_open : str := L "<think>".
Definition think_close : str := L "</think>".

(** The text after the first (case-insensitive) [</think>] of [s]. *)
Fixpoint after_close (s : str) : option str :=
  match s with
  | [] => None
  | _ :: r => if prefix_ci think_close s then Some (skipn 8 s) else after_close r
  end.

(** [.replace(/<think>[\s\S]*?<\/think>/gi, '')]: scan left to right; at
    an opening tag with a closing tag after it, drop up to the first such
    closing tag and go on after it; otherwise keep the character. The
    text shrinks at every step, so [List.length s] steps suffice. *)
Fixpoint drop_blocks (fuel : nat) (s : str) : str :=
  match fuel with
  | O => s
  | S f =>
      match s with
      | [] => []
      | c :: r =>
          if prefix_ci think_open s then
            match after_close (skipn 7 s) with
            | Some rest => drop_blocks f rest
            | None => c :: drop_blocks f r
            end
          else c :: drop_blocks f r
      end
  end.

Definition remove_think_blocks (s : str) : str := drop_blocks (List.length s) s.

(** [.replace(/<think>[\s\S]*$/gi, '')] *)
Fixpoint cut_unclosed_think (s : str) : str :=
  match s with
  | [] => []
  | c :: r => if prefix_ci think_open s then [] else c :: cut_unclosed_think r
  end.

(** [.replace(/lit/g, '')] for a literal pattern. *)
Fixpoint drop_lit (pat : str) (fuel : nat) (s : str) : str :=
  match fuel with
  | O => s
  | S f =>
      match s with
      | [] => []
      | c :: r =>
          if prefixb pat s then drop_lit pat f (skipn (List.length pat) s)
          else c :: drop_lit pat f r
      end
  end.

Definition remove_all (pat s : str) : str := drop_lit pat (List.length s) s.

(** [.replace(/\n{3,}/g, '\n\n')]: [run] newlines are pending. *)
Definition emit_newlines (run : nat) : str :=
  if Nat.leb 3 run then [nl; nl] else repeat nl run.

Fixpoint collapse_newlines (run : nat) (s : str) : str :=
  match s with
  | [] => emit_newlines run
  | c :: r =>
      if char_eqb c nl then collapse_newlines (S run) r
      else emit_newlines run ++ c :: collapse_newlines 0 r
  end.

Definition cleanResponse (text : str) : str :=
  match text with
  | [] => []
  | _ =>
      let cleaned := remove_think_blocks text in
      let cleaned := cut_unclosed_think cleaned in
      let cleaned := remove_all im_end cleaned in
      let cleaned := remove_all im_start cleaned in
      let cleaned := collapse_newlines 0 cleaned in
      trim cleaned
  end.

Definition lbracket : ascii := "["%char.
Definition rbracket : ascii := "]"%char.

(** [text.match(/\[([^\]]+)\]/g)]: the whole matches, left to right.
    [open_] is [Some buf] after an opening bracket ([buf] reversed). *)
Fixpoint bracket_matches (open_ : option str) (s : str) : list str :=
  match s with
  | [] => []
  | c :: r =>
      match open_ with
      | None =>
          if char_eqb c lbracket then bracket_matches (Some []) r
          else bracket_matches None r
      | Some buf =>
          if char_eqb c rbracket then
            match buf with
            | [] => bracket_matches None r
            | _ => (lbracket :: rev buf ++ [rbracket]) :: bracket_matches None r
            end
          else bracket_matches (Some (c :: buf)) r
      end
  end.

Fixpoint take_until_nl (s : str) : str :=
  match s with
  | [] => []
  | c :: r => if char_eqb c nl then [] else c :: take_until_nl r
  end.

(** [text.split('\n').pop() || ''] *)
Definition last_line (s : str) : str := rev (take_until_nl (rev s)).

(** [match.slice(1, -1)] *)
Definition slice_1_m1 (s : str) : str := removelast (tl s).

Definition extractSuggestions (text : str) : list str :=
  match bracket_matches None text with
  | [] => []
  | _ =>
      match bracket_matches None (last_line text) with
      | [] => []
      | endMatches => map slice_1_m1 endMatches
      end
  end.

Fixpoint skip_space (s : str) : str :=
  match s with
  | c :: r => if is_js_space c then skip_space r else s
  | [] => []
  end.

Fixpoint split_at_rbracket (s : str) : option (str * str) :=
  match s with
  | [] => None
  | c :: r =>
      if char_eqb c rbracket then Some ([], r)
      else match split_at_rbracket r with
           | Some (inner, rest) => Some (c :: inner, rest)
           | None => None
           end
  end.

(** One chip [\[([^\]]+)\]] at the head of [s]: the text after it. *)
Definition chip (s : str) : option str :=
  match s with
  | c :: r =>
      if char_eqb c lbracket then
        match split_at_rbracket r with
        | Some (_ :: _, rest) => Some rest
        | _ => None
        end
      else None
  | [] => None
  end.

(** [(?:\s*\[([^\]]+)\])*\s*$]; every chip takes at least three
    characters, so [List.length s] rounds suffice. *)
Fixpoint more_chips (fuel : nat) (s : str) : bool :=
  let s' := skip_space s in
  match s' with
  | [] => true
  | _ => match fuel with
         | O => false
         | S f => match chip s' with
                  | Some rest => more_chips f rest
                  | None => false
                  end
         end
  end.

(** Does the suffix [s] match [\s*\[([^\]]+)\](?:\s*\[([^\]]+)\])*\s*$]?
    (The pattern is deterministic: whitespace never starts a chip and a
    chip ends at its first closing bracket.) *)
Definition trailing_chips (s : str) : bool :=
  match chip (skip_space s) with
  | Some rest => more_chips (List.length rest) rest
  | None => false
  end.

(** The first (leftmost) match runs to the end of the text, so the
    replacement keeps the text before it. *)
Fixpoint cut_trailing_chips (s : str) : str :=
  match s with
  | [] => []
  | c :: r => if trailing_chips s then [] else c :: cut_trailing_chips r
  end.

Definition removeSuggestions (text : str) : str := trim (cut_trailing_chips text).

Record GenerationResult := mkGen {
  gen_text : str;
  gen_suggestions : option (list str) }.

(** The post-processing of [generateResponse] on the completion text. *)
Definition finish_generation (raw : str) : GenerationResult :=
  let cleanedText := cleanResponse raw in
  let suggestions := extractSuggestions cleanedText in
  let finalText := removeSuggestions cleanedText in
  mkGen finalText (match suggestions with [] => None | _ => Some suggestions end).

(* ------------------------------------------------------------------ *)
(** ** What applying a result may change *)

(** A goal row after the pipeline: same row, same identity, title,
    cadence, target and creation time; the streak never goes down. *)
Definition goal_kept (x y : Goals.t) : Prop :=
  Goals.id y = Goals.id x /\ Goals.title y = Goals.title x /\
  Goals.frequency y = Goals.frequency x /\
  Goals.target_count y = Goals.target_count x /\
  Goals.created_at y = Goals.created_at x /\
  (Goals.streak_count x <= Goals.streak_count y)%Z.

(** From [w] to [w']: profile and messages untouched, the notes, lists,
    list entries and mindmap facts of [w] kept as they are with new rows
    after them, and every goal row [goal_kept]. *)
Definition frame (w w' : World) : Prop :=
  users w' = users w /\ messages w' = messages w /\
  (exists ns, notes w' = notes w ++ ns) /\
  (exists ls, lists w' = lists w ++ ls) /\
  (exists is, listItems w' = listItems w ++ is) /\
  (exists ms, mindmapNodes w' = mindmapNodes w ++ ms) /\
  Forall2 goal_kept (goals w) (goals w').

(** The items the list-item claim says are inserted into a matched list
    holding [existing]: an item is skipped when an entry already there
    (or inserted before it) equals it case-insensitively. *)
Fixpoint claimed_inserts (existing items : list str) : list str :=
  match items with
  | [] => []
  | it :: rest =>
      if existsb (fun e => ci_eqb e it) existing
      then claimed_inserts existing rest
      else it :: claimed_inserts (existing ++ [it]) rest
  end.

(** Facts whose label equals [l] case-insensitively. *)
Definition count_label (l : str) (ns : list MindmapNodes.t) : nat :=
  List.length (filter (fun n => ci_eqb (MindmapNodes.label n) l) ns).

(** A goal row after completing the goal with id [gid] at time [now]:
    the rows with that id have their streak one higher and their
    last-completed date [now], all else equal; other rows are equal. *)
Definition goal_after (gid now : Z) (x y : Goals.t) : Prop :=
  if (Goals.id x =? gid)%Z then
    Goals.streak_count y = (Goals.streak_count x + 1)%Z /\
    Goals.last_completed_date y = Some now /\
    Goals.id y = Goals.id x /\ Goals.title y = Goals.title x /\
    Goals.frequency y = Goals.frequency x /\
    Goals.target_count y = Goals.target_count x /\
    Goals.created_at y = Goals.created_at x
  else y = x.

(** The contents of the entries of list [t], in rowid order. *)
Definition contents_in (t : Lists.t) (its : list ListItems.t) : list str :=
  map ListItems.content
    (filter (fun it => (ListItems.list_id it =? Lists.id t)%Z) its).

Definition list_match (g : ListGroup.t) (l : Lists.t) : bool :=
  fuzzy_match (Lists.title l) (ListGroup.listName g).

(** The fact [apply_node] inserts for item [n] into the store [w]. *)
Definition node_row (n : NodeIn.t) (w : World) (l c : str) : MindmapNodes.t :=
  MindmapNodes.mk (next_id (map MindmapNodes.id (mindmapNodes w))) l c
    (confidence_or_default (NodeIn.confidence n)) None (clock w).

Definition has_label (l : str) (ns : list MindmapNodes.t) : bool :=
  existsb (fun x => ci_eqb (MindmapNodes.label x) l) ns.

(** Relations between the store before and after a step. *)
Definition nodes_eq (w w' : World) : Prop := mindmapNodes w' = mindmapNodes w.
Definition count_le1 (l : str) (w w' : World) : Prop :=
  (count_label l (mindmapNodes w) <= 1 -> count_label l (mindmapNodes w') <= 1)%nat.
Definition keeps_label (l : str) (w w' : World) : Prop :=
  has_label l (mindmapNodes w) = true -> has_label l (mindmapNodes w') = true.

(* ------------------------------------------------------------------ *)
(** ** More of the record store ([SQLiteService]) *)

Definition set_users x w := mkWorld x (messages w) (notes w) (lists w)
  (listItems w) (goals w) (mindmapNodes w) (clock w) (faults w) (console w).
Definition set_messages x w := mkWorld (users w) x (notes w) (lists w)
  (listItems w) (goals w) (mindmapNodes w) (clock w) (faults w) (console w).

(** [x || null] on an optional string parameter. *)
Definition or_null (o : option str) : option str := if truthy o then o else None.

Definition createUser (name : str) (nickname role age_group gender : option str)
    (traits_json : str) : M Z :=
  db_call ;; w <- get ;;
  let i := next_id (map User.id (users w)) in
  put (set_users (users w ++ [User.mk i name (or_null nickname) (or_null role)
         (or_null age_group) (or_null gender) traits_json (clock w)]) w) ;;
  ret i.

(** [SELECT * FROM User LIMIT 1]: the first row in rowid order. *)
Definition getUser : M (option User.t) :=
  db_call ;; w <- get ;; ret (hd_error (users w)).

(** [INSERT INTO Messages (content, sender, context_json)]; the
    timestamp is [CURRENT_TIMESTAMP]. *)
Definition addMessage (content : str) (sender : Sender) (contextJson : option str)
    : M Z :=
  db_call ;; w <- get ;;
  let i := next_id (map Messages.id (messages w)) in
  put (set_messages (messages w ++
         [Messages.mk i content sender (clock w) (or_null contextJson)]) w) ;;
  ret i.

(** [SELECT * FROM Messages ORDER BY timestamp DESC LIMIT ?], then
    [.reverse()]. A negative limit is no limit in SQLite. *)
Definition getRecentMessages (limit : Z) : M (list Messages.t) :=
  db_call ;; w <- get ;;
  let sorted := order_desc Messages.timestamp (messages w) in
  ret (rev (if (limit <? 0)%Z then sorted else firstn (Z.to_nat limit) sorted)).

(** [UPDATE Notes SET title = ?, body = ? WHERE id = ?] *)
Definition updateNote (id : Z) (title body : str) : M unit :=
  db_call ;; w <- get ;;
  put (set_notes (map (fun n => if (Notes.id n =? id)%Z
                                then Notes.mk (Notes.id n) title body (Notes.created_by n)
                                       (Notes.tags n) (Notes.created_at n)
                                else n) (notes w)) w).

(** [UPDATE ListItems SET is_completed = NOT is_completed WHERE id = ?] *)
Definition toggleListItem (itemId : Z) : M unit :=
  db_call ;; w <- get ;;
  put (set_listItems (map (fun it => if (ListItems.id it =? itemId)%Z
      then ListItems.mk (ListItems.id it) (ListItems.list_id it) (ListItems.content it)
             (negb (ListItems.is_completed it)) (ListItems.created_at it)
      else it) (listItems w)) w).

(** [INSERT INTO Goals (title, frequency, target_count)] with
    [targetCount || null]; the streak defaults to 0. *)
Definition createGoal (title : str) (frequency : Frequency) (targetCount : option Z)
    : M Z :=
  db_call ;; w <- get ;;
  let i := next_id (map Goals.id (goals w)) in
  let target := match targetCount with
                | Some t => if (t =? 0)%Z then None else Some t
                | None => None
                end in
  put (set_goals (goals w ++ [Goals.mk i title frequency 0 None target (clock w)]) w) ;;
  ret i.

(* ------------------------------------------------------------------ *)
(** ** [JSON.stringify] on strings (ECMA-262, QuoteJSONString) *)

(** [arr.join(sep)] *)
Fixpoint join (sep : str) (l : list str) : str :=
  match l with
  | [] => []
  | [x] => x
  | x :: r => x ++ sep ++ join sep r
  end.

Definition bs : ascii := ascii_of_nat 92.
Definition dq : ascii := ascii_of_nat 34.

Definition hex_digit (n : nat) : ascii :=
  ascii_of_nat (if Nat.ltb n 10 then 48 + n else 87 + n).

(** One code unit: the short escapes, [\u00xx] (lowercase hex) for the
    other controls, the unit itself otherwise. *)
Definition quote_unit (c : ascii) : str :=
  match code c with
  | 8 => [bs; "b"%char] | 9 => [bs; "t"%char] | 10 => [bs; "n"%char]
  | 12 => [bs; "f"%char] | 13 => [bs; "r"%char]
  | 34 => [bs; dq] | 92 => [bs; bs]
  | n => if Nat.ltb n 32
         then [bs; "u"%char; "0"%char; "0"%char; hex_digit (n / 16); hex_digit (n mod 16)]
         else [c]
  end%nat.

Definition QuoteJSONString (s : str) : str :=
  dq :: List.concat (map quote_unit s) ++ [dq].

(** [JSON.stringify(arr)] for an array of strings. *)
Definition JSON_stringify_strings (l : list str) : str :=
  "["%char :: join [","%char] (map QuoteJSONString l) ++ ["]"%char].

(** [JSON.stringify({ options: arr })] *)
Definition JSON_stringify_options (l : list str) : str :=
  "{"%char :: QuoteJSONString (L "options") ++ ":"%char
    :: JSON_stringify_strings l ++ ["}"%char].

(** A parsed value used as [string[]]: an array of strings, read back as
    code units (other values are outside this model). *)
Definition strings_of (v : json) : option (list str) :=
  match v with
  | JArr l =>
      fold_right (fun x acc => match x, acc with
                               | JStr u, Some r => Some (map ascii_of_N u :: r)
                               | _, _ => None
                               end) (Some []) l
  | _ => None
  end.

(* ------------------------------------------------------------------ *)
(** ** [buildSystemPrompt], onboarding and app start ([App.tsx]) *)

Definition BASE_PERSONALITY : str :=
  join [nl]
    [L "You are Vi, an on-device personal AI. You are private and helpful.";
     [];
     L "STRICT RESPONSE RULES:";
     L "1. BREVITY: Keep responses short and impactful.";
     L "2. ACKNOWLEDGE: Always reflect the user's message first using your traits.";
     L "3. PERSONALITY: Never break character. Let your assigned traits drive your tone.";
     L "4. CURIOSITY: Mostly end with a brief follow-up question.";
     L "5. NO HALLUCINATION: Only use facts explicitly shared by the user."].

Definition buildSystemPrompt (name : str) (nickname role : option str)
    (traits : list str) : str :=
  let displayName := match nickname with Some (_ :: _ as n) => n | _ => name end in
  let prompt := BASE_PERSONALITY ++ [nl; nl] ++ L "User: " ++ displayName in
  let prompt := match role with
                | Some (_ :: _ as r) => prompt ++ L " (" ++ r ++ L ")"
                | _ => prompt
                end in
  match traits with
  | [] => prompt
  | _ => prompt ++ [nl; nl] ++ L "Your personality traits are: "
           ++ join (L ", ") traits ++ L "."
  end.

(** The [try] block of [handleOnboardingComplete]: save the profile with
    [traits_json: JSON.stringify(data.traits)], read it back, create the
    default lists and the central mindmap fact. *)
Definition onboarding_body (name : str) (nickname role ageGroup gender : option str)
    (traits : list str) : M unit :=
  _ <- createUser name nickname role ageGroup gender (JSON_stringify_strings traits) ;;
  _ <- getUser ;;
  _ <- createList (L "Groceries") (L "grocery") ;;
  _ <- createList (L "To-Do") (L "todo") ;;
  _ <- createList (L "Movies to Watch") (L "movies") ;;
  _ <- addMindmapNode name (L "personality") 1 ;;
  ret tt.

(** A failure is logged by the [catch]. *)
Definition catch_log (m : M unit) : M unit := fun w =>
  match m w with
  | (inl e, w') => (inr tt, set_console (console w' ++ [e]) w')
  | r => r
  end.

Definition handleOnboardingComplete (name : str)
    (nickname role ageGroup gender : option str) (traits : list str) : M unit :=
  catch_log (onboarding_body name nickname role ageGroup gender traits).

(** [initializeApp] after [dbService.init()]: the system prompt it sets
    ([None]: none is set; a [JSON.parse] failure is caught there). *)
Definition initializeApp_prompt : M (option str) :=
  existingUser <- getUser ;;
  match existingUser with
  | Some u =>
      match JSON_parse (User.traits_json u) with
      | Some v =>
          match strings_of v with
          | Some traits =>
              ret (Some (buildSystemPrompt (User.name u) (User.nickname u)
                           (User.role u) traits))
          | None => ret None
          end
      | None => ret None
      end
  | None => ret None
  end.

(* ------------------------------------------------------------------ *)
(** ** [ChatScreen.handleSend] *)

(** [messageText || input.trim()] *)
Definition text_to_send (messageText : option str) (input : str) : str :=
  match messageText with Some (_ :: _ as m) => m | _ => trim input end.

(** The store effects of [handleSend]. [completion] is the text the
    engine completed ([None]: [generateResponse] threw); the reply is
    post-processed by [finish_generation]. The user's turn is stored
    before the [try]; the reply inside it. *)
Definition handleSend (messageText : option str) (input : str)
    (ready isGenerating : bool) (completion : option str) : M unit :=
  let textToSend := text_to_send messageText input in
  if negb (truthy (Some textToSend)) || negb ready || isGenerating then ret tt
  else
    _ <- addMessage textToSend SUser None ;;
    catch_log
      (match completion with
       | None => throw LLMError
       | Some raw =>
           let result := finish_generation raw in
           _ <- addMessage (gen_text result) SAssistant
                  (match gen_suggestions result with
                   | Some s => Some (JSON_stringify_options s)
                   | None => None
                   end) ;;
           ret tt
       end).

(* ------------------------------------------------------------------ *)
(** ** [parseAIResponse] *)

(** [(?:\s*\[([^\]]+)\])*$] *)
Fixpoint chips_to_end (fuel : nat) (s : str) : bool :=
  match s with
  | [] => true
  | _ => match fuel with
         | O => false
         | S f => match chip (skip_space s) with
                  | Some rest => chips_to_end f rest
                  | None => false
                  end
         end
  end.

(** Does the suffix [s] match [\[([^\]]+)\](?:\s*\[([^\]]+)\])*$]? *)
Definition trailing_exact (s : str) : bool :=
  match chip s with
  | Some rest => chips_to_end (List.length rest) rest
  | None => false
  end.

(** [response.match(...)] is non-null. *)
Fixpoint has_trailing_exact (s : str) : bool :=
  match s with
  | [] => false
  | _ :: r => trailing_exact s || has_trailing_exact r
  end.

(** [response.replace(/.../, '')]: the leftmost match runs to the end. *)
Fixpoint cut_trailing_exact (s : str) : str :=
  match s with
  | [] => []
  | c :: r => if trailing_exact s then [] else c :: cut_trailing_exact r
  end.

Inductive AIAction := ASuggestion (options : list str).

Definition parseAIResponse (response : str) : str * list AIAction :=
  if has_trailing_exact response then
    match map slice_1_m1 (bracket_matches None response) with
    | [] => (response, [])
    | suggestions => (trim (cut_trailing_exact response), [ASuggestion suggestions])
    end
  else (response, []).

(* ------------------------------------------------------------------ *)
(** ** [LLMService.initialize], after the model file is in place *)

(** A thrown value: an [Error] with its message, a falsy value, or a
    truthy value without a [message]. *)
Inductive Thrown := TError (message : str) | TFalsy | TOther.

Record InitParams := mkInitParams {
  ip_model : str; ip_n_ctx : Z; ip_n_gpu_layers : option Z }.

Definition maxRetries : nat := 5.

Definition init_params (modelPath : str) (retryCount : nat) : InitParams :=
  mkInitParams modelPath 2048 (if Nat.ltb 0 retryCount then Some 99 else None).

(** [throw lastError || new Error(...)] *)
Definition exit_error (lastError : option Thrown) : Thrown :=
  match lastError with
  | Some (TError m) => TError m
  | Some TOther => TOther
  | _ => TError (L "Failed to initialize llama.rn after multiple attempts")
  end.

(** The [while] loop. [initLlama k p] is the outcome of the call made by
    attempt [k] with parameters [p] ([None]: it resolved). Yields the
    outcome, the parameters of the calls and the delays awaited. *)
Fixpoint retry_loop (initLlama : nat -> InitParams -> option Thrown)
    (modelPath : str) (fuel retryCount : nat) (lastError : option Thrown)
    : (Thrown + unit) * list InitParams * list Z :=
  match fuel with
  | O => (inl (exit_error lastError), [], [])
  | S f =>
      if Nat.ltb retryCount maxRetries then
        let initParams := init_params modelPath retryCount in
        match initLlama retryCount initParams with
        | None => (inr tt, [initParams], [])
        | Some initError =>
            let rc := S retryCount in
            let delay := if Nat.ltb rc maxRetries then [1000 * Z.of_nat rc] else [] in
            let '(res, calls, waits) :=
              retry_loop initLlama modelPath f rc (Some initError) in
            (res, initParams :: calls, delay ++ waits)
        end
      else (inl (exit_error lastError), [], [])
  end.

(** The [catch]: the message of the error it throws, from the caught
    error's [message] ([None]: [undefined]). *)
Definition init_error_message (message : option str) : str :=
  let has p := match message with Some m => includes m (L p) | None => false end in
  let '(errorMessage, recoveryHint) :=
    if has "initContext"%string then
      (L "AI native module failed to load", L "Please completely close and restart the app.")
    else if has "null"%string then
      (L "AI engine not properly loaded",
       L "The app may need to be reinstalled or the device restarted.")
    else if has "llama.rn module not properly loaded"%string then
      (L "AI engine component missing", L "Please reinstall the app or check for updates.")
    else if has "not ready"%string then
      (L "AI engine not ready", L "Please restart the app and try again.")
    else (L "Error initializing AI model", []) in
  let fullMessage := match recoveryHint with
                     | [] => errorMessage
                     | _ => errorMessage ++ L ". " ++ recoveryHint
                     end in
  fullMessage ++ [nl] ++ L "Original error: "
    ++ match message with Some m => m | None => L "undefined" end.

Definition notReady_message : str :=
  L "AI engine (llama.rn) is not ready. Please restart the app and try again.".
Definition notLoaded_message : str :=
  L "llama.rn module not properly loaded - initLlama is not a function".

(** From the native-module check on: [inr tt] is success
    ([isInitialized = true]), [inl msg] the error thrown to the caller.
    The loop never throws a falsy value, so [error.message] is read on
    an [Error] or another truthy value. *)
Definition initialize_tail (nativeModuleReady initLlamaIsFunction : bool)
    (initLlama : nat -> InitParams -> option Thrown) (modelPath : str)
    : (str + unit) * list InitParams * list Z :=
  let '(res, calls, waits) :=
    if negb nativeModuleReady then (inl (TError notReady_message), [], [])
    else if negb initLlamaIsFunction then (inl (TError notLoaded_message), [], [])
    else retry_loop initLlama modelPath maxRetries 0 None in
  match res with
  | inr tt => (inr tt, calls, waits)
  | inl e =>
      (inl (init_error_message (match e with TError m => Some m | _ => None end)),
       calls, waits)
  end.

(* ------------------------------------------------------------------ *)
(** ** [analyzeConversation]'s transcript and [split('\n')] *)

(** [s.split('\n')] *)
Fixpoint split_nl (s : str) : list str :=
  match s with
  | [] => [[]]
  | c :: r =>
      if char_eqb c nl then [] :: split_nl r
      else match split_nl r with
           | p :: ps => (c :: p) :: ps
           | [] => [[c]]
           end
  end.

Definition transcript_line (m : Messages.t) : str :=
  (match Messages.sender m with SUser => L "User" | SAssistant => L "Vi" end)
    ++ L ": " ++ Messages.content m.

(** [messages.map(m => ...).join('\n')] *)
Definition conversationText (messages : list Messages.t) : str :=
  join [nl] (map transcript_line messages).

(** Three newlines in a row. *)
Definition nl3 : str := [nl; nl; nl].

(* ------------------------------------------------------------------ *)
(** ** Sample data *)

Definition empty_world (fs : list bool) : World :=
  mkWorld [] [] [] [] [] [] [] 100 fs [].

Definition groceries_world : World :=
  mkWorld [] [] []
    [Lists.mk 1 (L "Weekly Groceries") (L "weekly_groceries") 5] [] [] [] 100 [] [].

Definition milk_group : ListGroup.t :=
  ListGroup.mk (L "groceries") [L "Milk"; L "milk"].

Definition hiking_node (category : str) : NodeIn.t :=
  NodeIn.mk (Some (L "Loves hiking")) (Some category) (Some (9 # 10)%Q).

Definition hiking_result (category : str) : Analysis.t :=
  Analysis.mk [] [] [] [hiking_node category].

Definition two_notes : Analysis.t :=
  Analysis.mk [NoteIn.mk (Some (L "A")) (Some (L "a"));
               NoteIn.mk (Some (L "B")) (Some (L "b"))] [] [] [].

Definition goals_world : World :=
  mkWorld [] [] [] [] []
    [Goals.mk 1 (L "Run 5k") Daily 2 None None 5;
     Goals.mk 2 (L "Read") Weekly 0 None (Some 3) 6] [] 100 [] [].

Definition chat_world : World :=
  mkWorld []
    [Messages.mk 1 (L "Buy milk tomorrow") SUser 10 None;
     Messages.mk 2 (L "Noted!") SAssistant 11 None] [] [] [] [] [] 100 [] [].

Definition chat_engine : Engine := mkEngine true (fun _ => Some (L "{}")).

(* ================================================================== *)
(** * Lemmas *)

Lemma char_eqb_eq a b : char_eqb a b = true <-> a = b.
Proof. apply Ascii.eqb_eq. Qed.

Lemma str_eqb_eq a b : str_eqb a b = true <-> a = b.
Proof.
  revert b; induction a as [|x a IH]; intros [|y b]; simpl; try easy.
  rewrite andb_true_iff, char_eqb_eq, IH. split.
  - intros [-> ->]; reflexivity.
  - intros H; injection H; auto.
Qed.

Lemma ci_eqb_spec a b : ci_eqb a b = true <-> toLowerCase a = toLowerCase b.
Proof. apply str_eqb_eq. Qed.

(** [fold_left] of an appending loop. *)
Lemma fold_append_concat {A} (f : A -> str) (l : list A) (p : str) :
  fold_left (fun acc x => acc ++ f x) l p = p ++ List.concat (map f l).
Proof.
  revert p; induction l as [|x l IH]; intros p; simpl.
  - now rewrite app_nil_r.
  - rewrite IH, app_assoc. reflexivity.
Qed.

Lemma skipn_app_exact {A} (x y : list A) n :
  List.length x = n -> skipn n (x ++ y) = y.
Proof. intros <-; induction x; simpl; auto. Qed.

Lemma prefix_ci_app p x y :
  prefix_ci p x = true -> prefix_ci p (x ++ y) = true.
Proof.
  revert x; induction p as [|a p IH]; intros [|b x]; simpl; try easy.
  rewrite !andb_true_iff. intros [H1 H2]; auto.
Qed.

Lemma prefixb_app p x y : prefixb p x = true -> prefixb p (x ++ y) = true.
Proof.
  revert x; induction p as [|a p IH]; intros [|b x]; simpl; try easy.
  rewrite !andb_true_iff. intros [H1 H2]; auto.
Qed.

Lemma prefix_ci_nil p : p <> [] -> prefix_ci p [] = false.
Proof. destruct p; simpl; congruence. Qed.

Arguments prefix_ci : simpl never.
Arguments prefixb : simpl never.
Arguments think_open : simpl never.
Arguments think_close : simpl never.

(** Use the position-0 instance of a hypothesis about every position of
    a prefix. *)
Ltac use_head H :=
  let H0 := fresh "H0" in
  pose proof (H 0%nat ltac:(simpl; lia)) as H0; cbn [skipn app] in H0;
  rewrite H0.

(** *** [<think>] blocks *)

Lemma after_close_length x rest :
  after_close x = Some rest -> (List.length rest < List.length x)%nat.
Proof.
  revert rest; induction x as [|c x IH]; intros rest; cbn [after_close];
    [discriminate|].
  destruct (prefix_ci think_close (c :: x)).
  - intros H. injection H as <-.
    pose proof (length_skipn 7 x) as L7. simpl in L7 |- *. lia.
  - intros H. specialize (IH _ H). simpl. lia.
Qed.

Lemma drop_blocks_fuel f1 f2 s :
  (List.length s <= f1)%nat -> (List.length s <= f2)%nat ->
  drop_blocks f1 s = drop_blocks f2 s.
Proof.
  revert f2 s; induction f1 as [|f1 IH]; intros f2 s H1 H2.
  - destruct s; [|simpl in H1; lia]. destruct f2; reflexivity.
  - destruct s as [|c r]; [destruct f2; reflexivity|].
    destruct f2 as [|f2]; [simpl in H2; lia|].
    simpl List.length in H1, H2. cbn [drop_blocks].
    destruct (prefix_ci think_open (c :: r)).
    + destruct (after_close (skipn 7 (c :: r))) as [rest|] eqn:E.
      * apply after_close_length in E.
        assert (List.length (skipn 7 (c :: r)) <= S (List.length r))%nat
          by (rewrite length_skipn; simpl; lia).
        apply IH; simpl in *; lia.
      * f_equal; apply IH; lia.
    + f_equal; apply IH; lia.
Qed.

(** Unfolding equation of the block scanner. *)
Lemma remove_think_blocks_cons c r :
  remove_think_blocks (c :: r) =
  if prefix_ci think_open (c :: r) then
    match after_close (skipn 7 (c :: r)) with
    | Some rest => remove_think_blocks rest
    | None => c :: remove_think_blocks r
    end
  else c :: remove_think_blocks r.
Proof.
  unfold remove_think_blocks at 1. cbn [List.length drop_blocks].
  destruct (prefix_ci think_open (c :: r)).
  - destruct (after_close (skipn 7 (c :: r))) as [rest|] eqn:E.
    + apply after_close_length in E.
      assert (List.length (skipn 7 (c :: r)) <= S (List.length r))%nat
        by (rewrite length_skipn; simpl; lia).
      apply drop_blocks_fuel; simpl in *; lia.
    + reflexivity.
  - reflexivity.
Qed.

Lemma after_close_at x :
  prefix_ci think_close x = true -> after_close x = Some (skipn 8 x).
Proof.
  destruct x as [|c x]; intros H.
  - rewrite prefix_ci_nil in H; [discriminate|unfold think_close; simpl; congruence].
  - cbn [after_close]. rewrite H. reflexivity.
Qed.

Lemma after_close_skip mid c post :
  List.length c = 8%nat -> prefix_ci think_close c = true ->
  (forall j, (j < List.length mid)%nat ->
     prefix_ci think_close (skipn j (mid ++ c ++ post)) = false) ->
  after_close (mid ++ c ++ post) = Some post.
Proof.
  intros Hl Hc; induction mid as [|x mid IH]; intros Hm.
  - simpl app. rewrite after_close_at by (apply prefix_ci_app; exact Hc).
    f_equal. apply skipn_app_exact. exact Hl.
  - cbn [app after_close].
    pose proof (Hm 0%nat ltac:(simpl; lia)) as H0. cbn [skipn app] in H0.
    rewrite H0.
    apply IH. intros j Hj. apply (Hm (S j)). simpl; lia.
Qed.

Lemma remove_think_blocks_open x rest :
  prefix_ci think_open x = true -> after_close (skipn 7 x) = Some rest ->
  remove_think_blocks x = remove_think_blocks rest.
Proof.
  destruct x as [|y x]; intros H1 H2.
  - rewrite prefix_ci_nil in H1; [discriminate|unfold think_open; simpl; congruence].
  - rewrite remove_think_blocks_cons, H1, H2. reflexivity.
Qed.

Lemma remove_think_blocks_block pre o mid c post :
  List.length o = 7%nat -> prefix_ci think_open o = true ->
  List.length c = 8%nat -> prefix_ci think_close c = true ->
  (forall j, (j < List.length pre)%nat ->
     prefix_ci think_open (skipn j (pre ++ o ++ mid ++ c ++ post)) = false) ->
  (forall j, (j < List.length mid)%nat ->
     prefix_ci think_close (skipn j (mid ++ c ++ post)) = false) ->
  remove_think_blocks (pre ++ o ++ mid ++ c ++ post) =
  pre ++ remove_think_blocks post.
Proof.
  intros Ho Hop Hc Hcp Hpre Hmid.
  induction pre as [|x pre IH].
  - simpl app. apply remove_think_blocks_open.
    + apply prefix_ci_app; exact Hop.
    + rewrite skipn_app_exact by exact Ho. apply after_close_skip; auto.
  - cbn [app]. rewrite remove_think_blocks_cons.
    pose proof (Hpre 0%nat ltac:(simpl; lia)) as H0. cbn [skipn app] in H0.
    rewrite H0. f_equal.
    apply IH. intros j Hj. apply (Hpre (S j)). simpl; lia.
Qed.

Lemma remove_think_blocks_no_close s :
  (forall j, prefix_ci think_close (skipn j s) = false) ->
  remove_think_blocks s = s.
Proof.
  induction s as [|c r IH]; intros H; [reflexivity|].
  rewrite remove_think_blocks_cons.
  assert (Hr : forall j, prefix_ci think_close (skipn j r) = false)
    by (intros j; apply (H (S j))).
  assert (Ha : forall x, (forall j, prefix_ci think_close (skipn j x) = false) ->
                         after_close x = None).
  { induction x as [|y x IHx]; intros Hx; cbn [after_close]; [reflexivity|].
    pose proof (Hx 0%nat) as H0. cbn [skipn] in H0. rewrite H0.
    apply IHx. intros j; apply (Hx (S j)). }
  rewrite Ha.
  - destruct (prefix_ci think_open (c :: r)); f_equal; apply IH; exact Hr.
  - intros j. rewrite skipn_skipn. apply H.
Qed.

(** *** Unterminated [<think>] *)

Lemma cut_unclosed_think_prefix s : exists t, s = cut_unclosed_think s ++ t.
Proof.
  induction s as [|c r [t IH]]; simpl; [exists []; reflexivity|].
  destruct (prefix_ci think_open (c :: r)).
  - exists (c :: r); reflexivity.
  - exists t. simpl. rewrite <- IH. reflexivity.
Qed.

Lemma cut_unclosed_think_no_open s j :
  prefix_ci think_open (skipn j (cut_unclosed_think s)) = false.
Proof.
  revert j; induction s as [|c r IH]; intros j; simpl.
  - destruct j; reflexivity.
  - destruct (prefix_ci think_open (c :: r)) eqn:E.
    + destruct j; reflexivity.
    + destruct j as [|j]; [|apply IH]. cbn [skipn].
      destruct (prefix_ci think_open (c :: cut_unclosed_think r)) eqn:E2; [|reflexivity].
      destruct (cut_unclosed_think_prefix r) as [t Ht].
      rewrite Ht in E. rewrite app_comm_cons in E.
      rewrite (prefix_ci_app _ _ _ E2) in E. discriminate.
Qed.

Lemma cut_unclosed_think_at pre rest :
  prefix_ci think_open rest = true ->
  (forall j, (j < List.length pre)%nat ->
     prefix_ci think_open (skipn j (pre ++ rest)) = false) ->
  cut_unclosed_think (pre ++ rest) = pre.
Proof.
  intros Hr; induction pre as [|x pre IH]; intros H.
  - destruct rest as [|c rest].
    + rewrite prefix_ci_nil in Hr; [discriminate|unfold think_open; simpl; congruence].
    + simpl app. cbn [cut_unclosed_think]. now rewrite Hr.
  - cbn [app cut_unclosed_think]. use_head H. f_equal.
    apply IH. intros j Hj. apply (H (S j)). simpl; lia.
Qed.

(** *** Literal tokens *)

Lemma drop_lit_fuel pat f1 f2 s :
  pat <> [] ->
  (List.length s <= f1)%nat -> (List.length s <= f2)%nat ->
  drop_lit pat f1 s = drop_lit pat f2 s.
Proof.
  intros Hp; revert f2 s; induction f1 as [|f1 IH]; intros f2 s H1 H2.
  - destruct s; [|simpl in H1; lia]. destruct f2; reflexivity.
  - destruct s as [|c r]; [destruct f2; reflexivity|].
    destruct f2 as [|f2]; [simpl in H2; lia|].
    simpl List.length in H1, H2. cbn [drop_lit].
    destruct (prefixb pat (c :: r)).
    + assert (List.length (skipn (List.length pat) (c :: r)) <= List.length r)%nat.
      { rewrite length_skipn. destruct pat; [congruence|]. simpl. lia. }
      apply IH; lia.
    + f_equal; apply IH; lia.
Qed.

Lemma remove_all_cons pat c r :
  pat <> [] ->
  remove_all pat (c :: r) =
  if prefixb pat (c :: r) then remove_all pat (skipn (List.length pat) (c :: r))
  else c :: remove_all pat r.
Proof.
  intros Hp. unfold remove_all at 1. cbn [List.length drop_lit].
  destruct (prefixb pat (c :: r)); [|reflexivity].
  apply drop_lit_fuel; auto.
  rewrite length_skipn. destruct pat; [congruence|]. simpl. lia.
Qed.

Lemma remove_all_token pat pre post :
  pat <> [] ->
  (forall j, (j < List.length pre)%nat ->
     prefixb pat (skipn j (pre ++ pat ++ post)) = false) ->
  remove_all pat (pre ++ pat ++ post) = pre ++ remove_all pat post.
Proof.
  intros Hp; induction pre as [|x pre IH]; intros H.
  - simpl app. destruct pat as [|y p]; [congruence|].
    cbn [app]. rewrite remove_all_cons by congruence.
    assert (E : prefixb (y :: p) ((y :: p) ++ post) = true).
    { apply prefixb_app. clear. generalize (y :: p). intros l.
      induction l as [|a l IHl]; [reflexivity|].
      unfold prefixb; fold prefixb. rewrite IHl, andb_true_r.
      apply char_eqb_eq. reflexivity. }
    cbn [app] in E. rewrite E.
    rewrite app_comm_cons, skipn_app_exact; reflexivity.
  - cbn [app]. rewrite remove_all_cons by exact Hp.
    use_head H. f_equal.
    apply IH. intros j Hj. apply (H (S j)). simpl; lia.
Qed.

(** *** Newline runs *)

Lemma collapse_newlines_run run k b :
  collapse_newlines run (repeat nl k ++ b) = collapse_newlines (run + k) b.
Proof.
  revert run; induction k as [|k IH]; intros run; simpl.
  - now rewrite Nat.add_0_r.
  - rewrite Nat.add_succ_r. apply IH.
Qed.

Lemma collapse_newlines_block k b :
  match b with c :: _ => char_eqb c nl = false | [] => True end ->
  collapse_newlines 0 (repeat nl k ++ b) = emit_newlines k ++ collapse_newlines 0 b.
Proof.
  intros Hb. rewrite collapse_newlines_run. simpl.
  destruct b as [|c b]; simpl.
  - destruct k as [|[|[|k]]]; reflexivity.
  - rewrite Hb. reflexivity.
Qed.

(** *** [trim] *)

Lemma trimStart_head s :
  match trimStart s with c :: _ => is_js_space c = false | [] => True end.
Proof.
  induction s as [|c r IH]; simpl; [exact I|].
  destruct (is_js_space c) eqn:E; [exact IH|exact E].
Qed.

Lemma trimStart_snoc y c :
  is_js_space c = false -> trimStart (y ++ [c]) = trimStart y ++ [c].
Proof.
  intros Hc; induction y as [|d y IH]; simpl.
  - now rewrite Hc.
  - destruct (is_js_space d); [exact IH|reflexivity].
Qed.

Lemma trim_ends s :
  match trim s with c :: _ => is_js_space c = false | [] => True end /\
  match rev (trim s) with c :: _ => is_js_space c = false | [] => True end.
Proof.
  unfold trim, trimEnd. split.
  - pose proof (trimStart_head s) as H.
    destruct (trimStart s) as [|c x]; [exact I|].
    simpl. rewrite (trimStart_snoc _ _ H), rev_app_distr. exact H.
  - rewrite rev_involutive. apply trimStart_head.
Qed.

(** *** Sorting *)

Lemma insert_by_perm {A} (le : A -> A -> bool) x l :
  Permutation (insert_by le x l) (x :: l).
Proof.
  induction l as [|y l IH]; simpl; [reflexivity|].
  destruct (le x y); [reflexivity|].
  rewrite IH. apply perm_swap.
Qed.

Lemma sort_by_perm {A} (le : A -> A -> bool) l : Permutation (sort_by le l) l.
Proof.
  induction l as [|x l IH]; simpl; [reflexivity|].
  rewrite insert_by_perm. now apply perm_skip.
Qed.

Lemma existsb_perm {A} (f : A -> bool) l l' :
  Permutation l l' -> existsb f l = existsb f l'.
Proof.
  intros HP. apply eq_true_iff_eq. rewrite !existsb_exists.
  split; intros [x [Hx Hf]]; exists x; split; auto.
  - eapply Permutation_in; eauto.
  - eapply Permutation_in; [symmetry|]; eauto.
Qed.

Lemma in_sort_by {A} (le : A -> A -> bool) x l : In x (sort_by le l) -> In x l.
Proof. apply Permutation_in, sort_by_perm. Qed.

Lemma find_some_in {A} (f : A -> bool) l x : find f l = Some x -> In x l.
Proof. intros H. apply (find_some f l H). Qed.

(** *** The monad *)

Definition preserves (R : World -> World -> Prop) {A} (m : M A) : Prop :=
  forall w, R w (snd (m w)).

Lemma preserves_ret R {A} (a : A) : Reflexive R -> preserves R (ret a).
Proof. intros HR w. apply HR. Qed.

Lemma preserves_throw R {A} e : Reflexive R -> preserves R (@throw A e).
Proof. intros HR w. apply HR. Qed.

Lemma preserves_bind R {A B} (m : M A) (k : A -> M B) :
  Transitive R -> preserves R m -> (forall a, preserves R (k a)) ->
  preserves R (bind m k).
Proof.
  intros HT Hm Hk w. unfold bind. specialize (Hm w).
  destruct (m w) as [[e|a] w'] eqn:E; simpl in *; [exact Hm|].
  eapply HT; [exact Hm|apply Hk].
Qed.

Lemma preserves_for_each R {A} (f : A -> M unit) xs :
  Reflexive R -> Transitive R -> (forall x, preserves R (f x)) ->
  preserves R (for_each f xs).
Proof.
  intros HR HT Hf. induction xs as [|x xs IH]; simpl.
  - now apply preserves_ret.
  - apply preserves_bind; auto.
Qed.

Lemma bind_inr {A B} (m : M A) (k : A -> M B) w b w' :
  bind m k w = (inr b, w') ->
  exists a w1, m w = (inr a, w1) /\ k a w1 = (inr b, w').
Proof.
  unfold bind. destruct (m w) as [[e|a] w1]; [discriminate|].
  intros H. exists a, w1. auto.
Qed.

Lemma bind_inl {A B} (m : M A) (k : A -> M B) w e w' :
  m w = (inl e, w') -> bind m k w = (inl e, w').
Proof. unfold bind. intros ->. reflexivity. Qed.

Lemma bind_ok {A B} (m : M A) (k : A -> M B) w a w' :
  m w = (inr a, w') -> bind m k w = k a w'.
Proof. unfold bind. intros ->. reflexivity. Qed.

Lemma for_each_app {A} (f : A -> M unit) xs ys :
  forall w, for_each f (xs ++ ys) w = bind (for_each f xs) (fun _ => for_each f ys) w.
Proof.
  induction xs as [|x xs IH]; intros w; simpl.
  - reflexivity.
  - specialize (IH). unfold bind in *. destruct (f x w) as [[e|[]] w1];
      [reflexivity|]. apply IH.
Qed.

(** A completed loop ran every element to completion. *)
Lemma for_each_mem R {A} (f : A -> M unit) xs x w w' :
  Reflexive R -> Transitive R -> (forall y, preserves R (f y)) ->
  for_each f xs w = (inr tt, w') -> In x xs ->
  exists w1 w2, f x w1 = (inr tt, w2) /\ R w2 w'.
Proof.
  intros HR HT Hf. revert w. induction xs as [|y xs IH]; intros w H Hin;
    [destruct Hin|].
  simpl in H. apply bind_inr in H. destruct H as [[] [w1 [H1 H2]]].
  destruct Hin as [<-|Hin].
  - exists w, w1. split; [exact H1|].
    pose proof (preserves_for_each R f xs HR HT Hf w1) as P.
    rewrite H2 in P. exact P.
  - exact (IH w1 H2 Hin).
Qed.

(** *** Frame *)

#[local] Instance goal_kept_refl : Reflexive goal_kept.
Proof. intros x. unfold goal_kept. repeat split; lia. Qed.

#[local] Instance goal_kept_trans : Transitive goal_kept.
Proof.
  intros x y z (H1&H2&H3&H4&H5&H6) (G1&G2&G3&G4&G5&G6).
  unfold goal_kept. repeat split; congruence || lia.
Qed.

Lemma Forall2_refl' {A} (R : A -> A -> Prop) l : Reflexive R -> Forall2 R l l.
Proof. intros HR. induction l; constructor; auto. Qed.

Lemma Forall2_trans' {A} (R : A -> A -> Prop) l1 l2 l3 :
  Transitive R -> Forall2 R l1 l2 -> Forall2 R l2 l3 -> Forall2 R l1 l3.
Proof.
  intros HT H12. revert l3. induction H12; intros l3 H23; inversion H23; subst;
    constructor; eauto.
Qed.

#[local] Instance frame_refl : Reflexive frame.
Proof.
  intros w. unfold frame. repeat split; try (exists []; now rewrite app_nil_r).
  apply Forall2_refl'. exact goal_kept_refl.
Qed.

#[local] Instance frame_trans : Transitive frame.
Proof.
  intros w1 w2 w3 (A1&B1&[n1 C1]&[l1 D1]&[i1 E1]&[m1 F1]&G1)
                  (A2&B2&[n2 C2]&[l2 D2]&[i2 E2]&[m2 F2]&G2).
  unfold frame. split; [congruence|]. split; [congruence|].
  split; [exists (n1 ++ n2); rewrite C2, C1, app_assoc; reflexivity|].
  split; [exists (l1 ++ l2); rewrite D2, D1, app_assoc; reflexivity|].
  split; [exists (i1 ++ i2); rewrite E2, E1, app_assoc; reflexivity|].
  split; [exists (m1 ++ m2); rewrite F2, F1, app_assoc; reflexivity|].
  eapply Forall2_trans'; eauto. exact goal_kept_trans.
Qed.

Ltac frame_simple :=
  unfold frame; simpl; repeat split;
  try (exists []; now rewrite app_nil_r);
  try (eexists; reflexivity);
  try (apply Forall2_refl'; exact goal_kept_refl).

(** Unfold a store call down to its fault case. *)
Ltac store_unfold :=
  intros w; unfold bind, db_call, get, put, ret, throw;
  destruct (faults w) as [|[|] ?]; simpl.

Lemma frame_db_call : preserves frame db_call.
Proof. store_unfold; frame_simple. Qed.

Lemma frame_addNote t b c : preserves frame (addNote t b c).
Proof. unfold addNote. store_unfold; frame_simple. Qed.

Lemma frame_createList t ty : preserves frame (createList t ty).
Proof. unfold createList. store_unfold; frame_simple. Qed.

Lemma frame_getAllLists : preserves frame getAllLists.
Proof. unfold getAllLists. store_unfold; frame_simple. Qed.

Lemma frame_addListItem i c : preserves frame (addListItem i c).
Proof. unfold addListItem. store_unfold; frame_simple. Qed.

Lemma frame_getListItems i : preserves frame (getListItems i).
Proof. unfold getListItems. store_unfold; frame_simple. Qed.

Lemma frame_getAllGoals : preserves frame getAllGoals.
Proof. unfold getAllGoals. store_unfold; frame_simple. Qed.

Lemma goals_bump now goalId gs :
  Forall2 goal_kept gs
    (map (fun g => if (Goals.id g =? goalId)%Z then bump_streak now g else g) gs).
Proof.
  induction gs as [|g gs IH]; simpl; constructor; auto.
  destruct (Goals.id g =? goalId)%Z; [|apply goal_kept_refl].
  unfold goal_kept, bump_streak; simpl. repeat split; lia.
Qed.

Lemma frame_updateGoalStreak i : preserves frame (updateGoalStreak i).
Proof.
  unfold updateGoalStreak. store_unfold; frame_simple; apply goals_bump.
Qed.

Lemma frame_addMindmapNode l c q : preserves frame (addMindmapNode l c q).
Proof.
  unfold addMindmapNode. store_unfold; try frame_simple;
    destruct (valid_category c); simpl; frame_simple.
Qed.

Lemma frame_getAllMindmapNodes : preserves frame getAllMindmapNodes.
Proof. unfold getAllMindmapNodes. store_unfold; frame_simple. Qed.

Create HintDb frame_db.
#[local] Hint Resolve frame_db_call frame_addNote frame_createList frame_getAllLists
  frame_addListItem frame_getListItems frame_getAllGoals frame_updateGoalStreak
  frame_addMindmapNode frame_getAllMindmapNodes : frame_db.

Ltac frame_tac :=
  repeat match goal with
  | |- preserves frame (bind _ _) =>
      apply preserves_bind; [exact frame_trans| |intro]
  | |- preserves frame (for_each _ _) =>
      apply preserves_for_each; [exact frame_refl|exact frame_trans|intro]
  | |- preserves frame (ret _) => apply preserves_ret; exact frame_refl
  | |- preserves frame (throw _) => apply preserves_throw; exact frame_refl
  | |- preserves frame (if ?b then _ else _) => destruct b
  | |- preserves frame (match ?x with _ => _ end) => destruct x
  | |- _ => solve [auto with frame_db]
  end.

Lemma frame_apply_note n : preserves frame (apply_note n).
Proof. unfold apply_note. frame_tac. Qed.

Lemma frame_add_to_existing t it : preserves frame (add_to_existing t it).
Proof. unfold add_to_existing. frame_tac. Qed.

Lemma frame_apply_list_group g : preserves frame (apply_list_group g).
Proof. unfold apply_list_group. frame_tac; apply frame_add_to_existing. Qed.

Lemma frame_apply_goal gc : preserves frame (apply_goal gc).
Proof. unfold apply_goal. frame_tac. Qed.

Lemma frame_apply_node n : preserves frame (apply_node n).
Proof. unfold apply_node. frame_tac. Qed.

Lemma frame_applyAnalysisResults a : preserves frame (applyAnalysisResults a).
Proof.
  unfold applyAnalysisResults. frame_tac.
  - apply frame_apply_note.
  - apply frame_apply_list_group.
  - apply frame_apply_goal.
  - apply frame_apply_node.
Qed.

(** *** Goals *)

Definition goal_match (gc : GoalCompletion.t) (g : Goals.t) : bool :=
  fuzzy_match (Goals.title g) (GoalCompletion.title gc).

Lemma goal_after_map gid now gs :
  Forall2 (goal_after gid now) gs
    (map (fun g => if (Goals.id g =? gid)%Z then bump_streak now g else g) gs).
Proof.
  induction gs as [|g gs IH]; simpl; constructor; auto.
  unfold goal_after. destruct (Goals.id g =? gid)%Z; [|reflexivity].
  unfold bump_streak; simpl. repeat split.
Qed.

Lemma apply_goal_found gc w g :
  find (goal_match gc) (order_desc Goals.created_at (goals w)) = Some g ->
  fst (apply_goal gc w) = inr tt ->
  Forall2 (goal_after (Goals.id g) (clock w)) (goals w) (goals (snd (apply_goal gc w))).
Proof.
  intros Hf. unfold apply_goal, getAllGoals, updateGoalStreak, bind, db_call, get,
    put, ret.
  unfold goal_match in Hf.
  destruct (faults w) as [|[|] r] eqn:Ef; cbn [fst snd]; try discriminate;
    cbn [goals clock set_faults faults]; rewrite Hf;
    [rewrite Ef|destruct r as [|[|] r']]; cbn; intros; try discriminate;
    apply goal_after_map.
Qed.

Lemma apply_goal_not_found gc w :
  find (goal_match gc) (order_desc Goals.created_at (goals w)) = None ->
  goals (snd (apply_goal gc w)) = goals w.
Proof.
  intros Hf. unfold apply_goal, getAllGoals, bind, db_call, get, ret.
  destruct (faults w) as [|[|] r]; cbn [fst snd]; unfold goal_match in Hf;
    cbn [goals clock set_faults faults]; try rewrite Hf; reflexivity.
Qed.

Lemma apply_goal_completes gc w :
  faults w = [] -> fst (apply_goal gc w) = inr tt.
Proof.
  intros H. unfold apply_goal, getAllGoals, updateGoalStreak, bind, db_call, get,
    put, ret. rewrite H. cbn [fst snd].
  destruct (find _ _); [rewrite H|]; reflexivity.
Qed.

(** *** List items *)

Lemma existsb_map' {A B} (f : B -> bool) (g : A -> B) l :
  existsb f (map g l) = existsb (fun x => f (g x)) l.
Proof. induction l; simpl; congruence. Qed.

Lemma contents_in_snoc t its row :
  ListItems.list_id row = Lists.id t ->
  contents_in t (its ++ [row]) = contents_in t its ++ [ListItems.content row].
Proof.
  intros H. unfold contents_in. rewrite filter_app, map_app. cbn.
  rewrite H, Z.eqb_refl. reflexivity.
Qed.

Lemma add_to_existing_step t it w :
  faults w = [] ->
  add_to_existing t it w =
  (inr tt,
   if existsb (fun e => ci_eqb e it) (contents_in t (listItems w)) then w
   else set_listItems (listItems w ++
          [ListItems.mk (next_id (map ListItems.id (listItems w))) (Lists.id t) it
             false (clock w)]) w).
Proof.
  intros H.
  assert (E : existsb (fun e => ci_eqb (ListItems.content e) it)
                (order_asc ListItems.created_at
                   (filter (fun x => (ListItems.list_id x =? Lists.id t)%Z)
                      (listItems w))) =
              existsb (fun e => ci_eqb e it) (contents_in t (listItems w))).
  { unfold order_asc. rewrite (existsb_perm _ _ _ (sort_by_perm _ _)).
    unfold contents_in. rewrite existsb_map'. reflexivity. }
  lazy beta iota zeta delta [add_to_existing getListItems addListItem bind db_call
    get put ret]. rewrite H. lazy beta iota zeta. rewrite E. clear E.
  destruct (existsb (fun e => ci_eqb e it) (contents_in t (listItems w)));
    lazy beta iota zeta delta [negb]; [reflexivity|]. rewrite H.
  reflexivity.
Qed.

Lemma add_to_existing_loop t its : forall w, faults w = [] ->
  let r := for_each (add_to_existing t) its w in
  fst r = inr tt /\ faults (snd r) = [] /\ lists (snd r) = lists w /\
  exists rows, listItems (snd r) = listItems w ++ rows /\
    Forall (fun x => ListItems.list_id x = Lists.id t /\
                     ListItems.is_completed x = false) rows /\
    map ListItems.content rows = claimed_inserts (contents_in t (listItems w)) its.
Proof.
  induction its as [|it its IH]; intros w Hw; cbn [for_each claimed_inserts].
  - repeat split; auto. exists []. rewrite app_nil_r. auto.
  - cbv zeta. rewrite (bind_ok _ _ _ _ _ (add_to_existing_step t it w Hw)).
    destruct (existsb _ _) eqn:Ed.
    + exact (IH w Hw).
    + set (row := ListItems.mk _ _ _ _ _).
      destruct (IH (set_listItems (listItems w ++ [row]) w) Hw)
        as (H1 & H2 & H3 & rows & H4 & H5 & H6).
      split; [exact H1|]. split; [exact H2|]. split; [exact H3|].
      exists (row :: rows). split; [rewrite H4; cbn; rewrite <- app_assoc; reflexivity|].
      split; [constructor; auto|].
      cbn [map]. rewrite H6. cbn [listItems set_listItems].
      rewrite contents_in_snoc by reflexivity. reflexivity.
Qed.

Lemma add_new_loop nid its : forall w, faults w = [] ->
  let r := for_each (fun item => addListItem nid item ;; ret tt) its w in
  fst r = inr tt /\ faults (snd r) = [] /\ lists (snd r) = lists w /\
  exists rows, listItems (snd r) = listItems w ++ rows /\
    Forall (fun x => ListItems.list_id x = nid /\
                     ListItems.is_completed x = false) rows /\
    map ListItems.content rows = its.
Proof.
  induction its as [|it its IH]; intros w Hw; cbn [for_each].
  - repeat split; auto. exists []. rewrite app_nil_r. auto.
  - cbv zeta.
    set (row := ListItems.mk (next_id (map ListItems.id (listItems w))) nid it
                  false (clock w)).
    assert (Hs : (addListItem nid it ;; ret tt) w =
                 (inr tt, set_listItems (listItems w ++ [row]) w)).
    { unfold addListItem, bind, db_call, get, put, ret. rewrite Hw. reflexivity. }
    rewrite (bind_ok _ _ _ _ _ Hs).
    destruct (IH (set_listItems (listItems w ++ [row]) w) Hw)
      as (H1 & H2 & H3 & rows & H4 & H5 & H6).
    split; [exact H1|]. split; [exact H2|]. split; [exact H3|].
    exists (row :: rows). split; [rewrite H4; cbn; rewrite <- app_assoc; reflexivity|].
    split; [constructor; auto|]. cbn [map]. rewrite H6. reflexivity.
Qed.

Lemma apply_list_group_found g w t :
  faults w = [] ->
  find (list_match g) (order_desc Lists.created_at (lists w)) = Some t ->
  apply_list_group g w = for_each (add_to_existing t) (ListGroup.items g) w.
Proof.
  intros Hw Hf. unfold list_match in Hf.
  unfold apply_list_group, getAllLists, bind, db_call, get, ret.
  rewrite Hw. lazy beta iota zeta. rewrite Hf. reflexivity.
Qed.

Lemma apply_list_group_not_found g w :
  faults w = [] ->
  find (list_match g) (order_desc Lists.created_at (lists w)) = None ->
  apply_list_group g w =
  for_each (fun item => addListItem (next_id (map Lists.id (lists w))) item ;; ret tt)
    (ListGroup.items g)
    (set_lists (lists w ++
       [Lists.mk (next_id (map Lists.id (lists w))) (ListGroup.listName g)
          (list_type_of (ListGroup.listName g)) (clock w)]) w).
Proof.
  intros Hw Hf. unfold list_match in Hf.
  unfold apply_list_group, getAllLists, bind, db_call, get, ret.
  rewrite Hw. lazy beta iota zeta. rewrite Hf.
  unfold createList, bind, db_call, get, put, ret. rewrite Hw. reflexivity.
Qed.

(** *** Mindmap facts *)

Lemma preserves_weaken (R1 R2 : World -> World -> Prop) {A} (m : M A) :
  (forall w w', R1 w w' -> R2 w w') -> preserves R1 m -> preserves R2 m.
Proof. intros H P w. apply H, P. Qed.

#[local] Instance nodes_eq_refl : Reflexive nodes_eq.
Proof. intros w. reflexivity. Qed.
#[local] Instance nodes_eq_trans : Transitive nodes_eq.
Proof. unfold nodes_eq. intros x y z H1 H2. congruence. Qed.
#[local] Instance count_le1_refl l : Reflexive (count_le1 l).
Proof. intros w H. exact H. Qed.
#[local] Instance count_le1_trans l : Transitive (count_le1 l).
Proof. intros x y z H1 H2 H. auto. Qed.
#[local] Instance keeps_label_refl l : Reflexive (keeps_label l).
Proof. intros w H. exact H. Qed.
#[local] Instance keeps_label_trans l : Transitive (keeps_label l).
Proof. intros x y z H1 H2 H. auto. Qed.

Lemma nodes_eq_db_call : preserves nodes_eq db_call.
Proof. store_unfold; reflexivity. Qed.
Lemma nodes_eq_addNote t b c : preserves nodes_eq (addNote t b c).
Proof. unfold addNote. store_unfold; reflexivity. Qed.
Lemma nodes_eq_createList t ty : preserves nodes_eq (createList t ty).
Proof. unfold createList. store_unfold; reflexivity. Qed.
Lemma nodes_eq_getAllLists : preserves nodes_eq getAllLists.
Proof. unfold getAllLists. store_unfold; reflexivity. Qed.
Lemma nodes_eq_addListItem i c : preserves nodes_eq (addListItem i c).
Proof. unfold addListItem. store_unfold; reflexivity. Qed.
Lemma nodes_eq_getListItems i : preserves nodes_eq (getListItems i).
Proof. unfold getListItems. store_unfold; reflexivity. Qed.
Lemma nodes_eq_getAllGoals : preserves nodes_eq getAllGoals.
Proof. unfold getAllGoals. store_unfold; reflexivity. Qed.
Lemma nodes_eq_updateGoalStreak i : preserves nodes_eq (updateGoalStreak i).
Proof. unfold updateGoalStreak. store_unfold; reflexivity. Qed.

Create HintDb nodes_db.
#[local] Hint Resolve nodes_eq_db_call nodes_eq_addNote nodes_eq_createList
  nodes_eq_getAllLists nodes_eq_addListItem nodes_eq_getListItems
  nodes_eq_getAllGoals nodes_eq_updateGoalStreak : nodes_db.

Ltac nodes_tac :=
  repeat match goal with
  | |- preserves nodes_eq (bind _ _) =>
      apply preserves_bind; [exact nodes_eq_trans| |intro]
  | |- preserves nodes_eq (for_each _ _) =>
      apply preserves_for_each; [exact nodes_eq_refl|exact nodes_eq_trans|intro]
  | |- preserves nodes_eq (ret _) => apply preserves_ret; exact nodes_eq_refl
  | |- preserves nodes_eq (if ?b then _ else _) => destruct b
  | |- preserves nodes_eq (match ?x with _ => _ end) => destruct x
  | |- _ => solve [auto with nodes_db]
  end.

Lemma nodes_eq_apply_note n : preserves nodes_eq (apply_note n).
Proof. unfold apply_note. nodes_tac. Qed.

Lemma nodes_eq_add_to_existing t it : preserves nodes_eq (add_to_existing t it).
Proof. unfold add_to_existing. nodes_tac. Qed.

Lemma nodes_eq_apply_list_group g : preserves nodes_eq (apply_list_group g).
Proof. unfold apply_list_group. nodes_tac; apply nodes_eq_add_to_existing. Qed.

Lemma nodes_eq_apply_goal gc : preserves nodes_eq (apply_goal gc).
Proof. unfold apply_goal. nodes_tac. Qed.

Lemma existsb_sort {A} (f : A -> bool) le l : existsb f (sort_by le l) = existsb f l.
Proof. apply existsb_perm, sort_by_perm. Qed.

Lemma getAllMindmapNodes_spec w x w1 :
  getAllMindmapNodes w = (x, w1) ->
  mindmapNodes w1 = mindmapNodes w /\ clock w1 = clock w /\
  (x = inl SqliteError \/ x = inr (order_asc MindmapNodes.created_at (mindmapNodes w))).
Proof.
  unfold getAllMindmapNodes, bind, db_call, get, ret.
  destruct (faults w) as [|[|] r]; cbn; intros H; injection H as <- <-; auto.
Qed.

Lemma addMindmapNode_spec l c q w y w2 :
  addMindmapNode l c q w = (y, w2) ->
  (mindmapNodes w2 = mindmapNodes w /\ exists e, y = inl e) \/
  (valid_category c = true /\ exists i, y = inr i /\
   mindmapNodes w2 = mindmapNodes w ++
     [MindmapNodes.mk (next_id (map MindmapNodes.id (mindmapNodes w))) l c q None
        (clock w)]).
Proof.
  unfold addMindmapNode, bind, db_call, get, put, ret, throw.
  destruct (faults w) as [|[|] r]; destruct (valid_category c) eqn:Ev; cbn;
    intros H; injection H as <- <-; eauto 6.
Qed.

(** The shape of an [apply_node] step, complete or not. *)
Lemma apply_node_cases n w :
  mindmapNodes (snd (apply_node n w)) = mindmapNodes w \/
  exists l c, NodeIn.label n = Some l /\ NodeIn.category n = Some c /\
    has_label l (mindmapNodes w) = false /\
    fst (apply_node n w) = inr tt /\
    mindmapNodes (snd (apply_node n w)) = mindmapNodes w ++ [node_row n w l c].
Proof.
  unfold apply_node.
  destruct (NodeIn.label n) as [[|a l]|] eqn:El; cbn [truthy andb];
    [left; destruct (NodeIn.category n); reflexivity| |left; reflexivity].
  destruct (NodeIn.category n) as [[|b c]|] eqn:Ec; cbn [truthy andb];
    [left; reflexivity| |left; reflexivity].
  unfold bind.
  destruct (getAllMindmapNodes w) as [x w1] eqn:E.
  destruct (getAllMindmapNodes_spec _ _ _ E) as (Hn & Hc & [-> | ->]);
    [left; exact Hn|].
  unfold order_asc. rewrite existsb_sort.
  destruct (existsb _ (mindmapNodes w)) eqn:Ed; [left; exact Hn|].
  cbn [negb].
  destruct (addMindmapNode _ _ _ w1) as [y w2] eqn:E2.
  destruct (addMindmapNode_spec _ _ _ _ _ _ E2) as [[Hn2 [e ->]] | [_ [i [-> Hn2]]]].
  - left. cbn. congruence.
  - right. exists (a :: l), (b :: c). repeat split; auto.
    cbn. rewrite Hn2, Hn, Hc. reflexivity.
Qed.

(** With a working store, an item with label and category present
    completes unless its category is refused. *)
Lemma apply_node_no_fault n w l c :
  NodeIn.label n = Some l -> NodeIn.category n = Some c -> l <> [] -> c <> [] ->
  faults w = [] ->
  apply_node n w =
  if has_label l (mindmapNodes w) then (inr tt, w)
  else if valid_category c
       then (inr tt, set_mindmapNodes (mindmapNodes w ++ [node_row n w l c]) w)
       else (inl (ConstraintFailed (L "category")), w).
Proof.
  intros El Ec Hl Hc Hw. unfold apply_node. rewrite El, Ec.
  destruct l as [|a l]; [congruence|]. destruct c as [|b c]; [congruence|].
  cbn [truthy andb].
  unfold getAllMindmapNodes, addMindmapNode, bind, db_call, get, put, ret, throw.
  rewrite Hw. lazy beta iota zeta. unfold order_asc. rewrite existsb_sort.
  unfold has_label.
  destruct (existsb _ (mindmapNodes w)); [reflexivity|]. cbn [negb].
  lazy beta iota zeta. rewrite Hw. lazy beta iota zeta.
  destruct (valid_category (b :: c)); reflexivity.
Qed.

Lemma has_label_app l xs ys :
  has_label l (xs ++ ys) = has_label l xs || has_label l ys.
Proof. unfold has_label. apply existsb_app. Qed.

Lemma ci_eqb_refl a : ci_eqb a a = true.
Proof. apply ci_eqb_spec. reflexivity. Qed.

Lemma ci_eqb_rewrite x l l' :
  ci_eqb l' l = true -> ci_eqb x l' = ci_eqb x l.
Proof.
  intros H. apply ci_eqb_spec in H.
  apply eq_true_iff_eq. rewrite !ci_eqb_spec. rewrite H. reflexivity.
Qed.

Lemma has_label_rewrite ns l l' :
  ci_eqb l' l = true -> has_label l' ns = has_label l ns.
Proof.
  intros H. unfold has_label. induction ns as [|x ns IH]; cbn; auto.
  rewrite (ci_eqb_rewrite _ _ _ H), IH. reflexivity.
Qed.

Lemma count_label_app l xs ys :
  count_label l (xs ++ ys) = (count_label l xs + count_label l ys)%nat.
Proof. unfold count_label. rewrite filter_app, length_app. reflexivity. Qed.

Lemma count_label_none l ns : has_label l ns = false -> count_label l ns = 0%nat.
Proof.
  unfold has_label, count_label. induction ns as [|x ns IH]; cbn; auto.
  destruct (ci_eqb _ l); [discriminate|]. exact IH.
Qed.

Lemma count_label_pos l ns : has_label l ns = true -> (1 <= count_label l ns)%nat.
Proof.
  unfold has_label, count_label. induction ns as [|x ns IH]; cbn; [discriminate|].
  destruct (ci_eqb _ l); cbn; [lia|]. exact IH.
Qed.

Lemma count_le1_apply_node l n : preserves (count_le1 l) (apply_node n).
Proof.
  intros w H.
  destruct (apply_node_cases n w) as [-> | (l' & c & _ & _ & Hd & _ & ->)]; auto.
  rewrite count_label_app.
  assert (H1 : (count_label l [node_row n w l' c] <= 1)%nat)
    by (unfold count_label; cbn; destruct (str_eqb _ _); cbn; lia).
  destruct (ci_eqb l' l) eqn:E.
  - assert (Hz : count_label l (mindmapNodes w) = 0%nat).
    { apply count_label_none. rewrite <- (has_label_rewrite _ _ _ E). exact Hd. }
    rewrite Hz. exact H1.
  - assert (Hz : count_label l [node_row n w l' c] = 0%nat)
      by (unfold count_label; cbn [filter node_row MindmapNodes.label]; rewrite E;
          reflexivity).
    lia.
Qed.

Lemma count_le1_applyAnalysisResults l a : preserves (count_le1 l) (applyAnalysisResults a).
Proof.
  assert (W : forall w w', nodes_eq w w' -> count_le1 l w w')
    by (intros w w' E; unfold nodes_eq, count_le1 in *; rewrite E; auto).
  unfold applyAnalysisResults.
  repeat (apply preserves_bind; [exact (count_le1_trans l)| |intro]);
    apply preserves_for_each; try exact (count_le1_refl l);
    try exact (count_le1_trans l); intro; try apply count_le1_apply_node;
    eapply preserves_weaken; try exact W.
  - apply nodes_eq_apply_note.
  - apply nodes_eq_apply_list_group.
  - apply nodes_eq_apply_goal.
Qed.

Lemma keeps_label_frame l w w' : frame w w' -> keeps_label l w w'.
Proof.
  intros (_ & _ & _ & _ & _ & [ms E] & _) H. rewrite E, has_label_app, H. reflexivity.
Qed.

Lemma applyAnalysisResults_nodes_stage a w w' :
  applyAnalysisResults a w = (inr tt, w') ->
  exists w1, for_each apply_node (Analysis.mindmapNodes a) w1 = (inr tt, w').
Proof.
  unfold applyAnalysisResults. intros H.
  apply bind_inr in H. destruct H as (_ & w1 & _ & H).
  apply bind_inr in H. destruct H as (_ & w2 & _ & H).
  apply bind_inr in H. destruct H as (_ & w3 & _ & H).
  exists w3. exact H.
Qed.

(** A completed apply of an item with a label and a category leaves a
    fact with that label. *)
Lemma apply_node_has_label n w w' l c :
  NodeIn.label n = Some l -> NodeIn.category n = Some c -> l <> [] -> c <> [] ->
  apply_node n w = (inr tt, w') -> has_label l (mindmapNodes w') = true.
Proof.
  intros El Ec Hl Hc H.
  destruct (apply_node_cases n w) as [En | (l' & c' & El' & _ & _ & _ & En)];
    rewrite H in En; cbn in En.
  - (* a step that changes no fact: the label was there *)
    unfold apply_node in H. rewrite El, Ec in H.
    destruct l as [|x l]; [congruence|]. destruct c as [|y c]; [congruence|].
    cbn [truthy andb] in H. unfold bind at 1 in H.
    destruct (getAllMindmapNodes w) as [r w1] eqn:E.
    destruct (getAllMindmapNodes_spec _ _ _ E) as (Hn & Hc' & [-> | ->]);
      [discriminate|].
    unfold order_asc in H. rewrite existsb_sort in H.
    destruct (existsb _ (mindmapNodes w)) eqn:Ed.
    + rewrite En. exact Ed.
    + cbn [negb] in H. unfold bind in H.
      destruct (addMindmapNode _ _ _ w1) as [y' w2] eqn:E2.
      destruct (addMindmapNode_spec _ _ _ _ _ _ E2)
        as [[_ [e ->]] | [_ [i [-> Hn2]]]]; [discriminate|].
      injection H as <-. rewrite Hn2, Hn, has_label_app. unfold has_label at 2.
      cbn [existsb MindmapNodes.label]. rewrite ci_eqb_refl.
      destruct (has_label _ _); reflexivity.
  - rewrite El in El'. injection El' as <-.
    rewrite En, has_label_app. unfold has_label at 2.
    cbn [existsb MindmapNodes.label node_row]. rewrite ci_eqb_refl.
    destruct (has_label _ _); reflexivity.
Qed.

(** *** Pipeline runs *)

Lemma or0_id x : or0 x = x.
Proof. unfold or0. destruct (Z.eqb_spec x 0); subst; reflexivity. Qed.

Lemma last_in {A} (l : list A) d : l <> [] -> In (last l d) l.
Proof.
  induction l as [|x l IH]; intros H; [congruence|].
  destruct l as [|y l]; [left; reflexivity|]. right. apply IH. discriminate.
Qed.

Lemma last_new_message_above mark msgs :
  newMessagesSince mark msgs <> [] ->
  (mark < Messages.id (last (newMessagesSince mark msgs) dummy_message))%Z.
Proof.
  intros H. pose proof (last_in _ dummy_message H) as Hin.
  unfold newMessagesSince in Hin at 2. apply filter_In in Hin.
  destruct Hin as [_ Hlt]. apply Z.ltb_lt in Hlt. rewrite or0_id in Hlt. exact Hlt.
Qed.

Lemma process_body_mark apply llm mark w m' w' :
  process_body apply llm mark w = (inr m', w') -> (mark <= m')%Z.
Proof.
  unfold process_body. intros H. apply bind_inr in H.
  destruct H as (msgs & w1 & _ & H).
  destruct (Nat.eqb _ 0); [injection H as <- _; lia|].
  cbv zeta in H.
  destruct (Nat.ltb _ 2) eqn:E2; [injection H as <- _; lia|].
  destruct (analyzeConversation llm _); [|discriminate].
  destruct (parseAnalysisResult _); [|injection H as <- _; lia].
  apply bind_inr in H. destruct H as (_ & w2 & _ & H).
  injection H as <- _. rewrite or0_id.
  apply Z.lt_le_incl, last_new_message_above.
  apply Nat.ltb_ge in E2. intros E. rewrite E in E2. cbn in E2. lia.
Qed.

Lemma process_mark_le apply llm ag w :
  (lastProcessedMessageId ag <=
   lastProcessedMessageId (fst (processRecentConversations apply llm ag w)))%Z.
Proof.
  unfold processRecentConversations.
  destruct (isProcessing ag); [cbn; lia|].
  destruct (isReady llm); cbn [negb]; [|cbn; lia].
  destruct (process_body apply llm (lastProcessedMessageId ag) w) as [[e|m'] w'] eqn:E;
    cbn; [lia|].
  exact (process_body_mark _ _ _ _ _ _ E).
Qed.

Lemma run_all_sorted apply runs : forall ag,
  Sorted Z.le (map lastProcessedMessageId (ag :: run_all apply ag runs)).
Proof.
  induction runs as [|[llm w] rest IH]; intros ag; cbn [run_all map].
  - repeat constructor.
  - constructor; [exact (IH _)|]. constructor. apply process_mark_le.
Qed.

(** A run that reaches the apply step: its outcome decides the run. *)
Lemma process_run_apply apply llm ag w msgs w1 raw an :
  let news := newMessagesSince (lastProcessedMessageId ag) msgs in
  isProcessing ag = false -> isReady llm = true ->
  getAllMessages w = (inr msgs, w1) -> msgs <> [] ->
  (2 <= List.length news)%nat ->
  analyzeConversation llm news = Some raw ->
  parseAnalysisResult raw = Some an ->
  processRecentConversations apply llm ag w =
  match apply an w1 with
  | (inr _, w2) => (mkAgent false (Messages.id (last news dummy_message)), w2)
  | (inl e, w2) =>
      (mkAgent false (lastProcessedMessageId ag), set_console (console w2 ++ [e]) w2)
  end.
Proof.
  cbv zeta. intros Hp Hr Hg Hm Hn Ha Hparse.
  assert (E0 : Nat.eqb (List.length msgs) 0 = false)
    by (destruct msgs; [congruence|reflexivity]).
  assert (E1 : Nat.ltb (List.length (newMessagesSince (lastProcessedMessageId ag) msgs)) 2
               = false) by (apply Nat.ltb_ge; exact Hn).
  unfold processRecentConversations. rewrite Hp, Hr. cbn [negb].
  unfold process_body. rewrite (bind_ok _ _ _ _ _ Hg).
  rewrite E0. lazy beta iota zeta. rewrite E1. lazy beta iota zeta.
  rewrite Ha. lazy beta iota zeta. rewrite Hparse. lazy beta iota zeta.
  unfold bind. destruct (apply an w1) as [[e|[]] w2]; [reflexivity|].
  unfold ret. rewrite or0_id. reflexivity.
Qed.

Lemma process_run_no_result apply llm ag w msgs w1 raw :
  let news := newMessagesSince (lastProcessedMessageId ag) msgs in
  isProcessing ag = false -> isReady llm = true ->
  getAllMessages w = (inr msgs, w1) -> msgs <> [] ->
  (2 <= List.length news)%nat ->
  analyzeConversation llm news = Some raw ->
  parseAnalysisResult raw = None ->
  processRecentConversations apply llm ag w =
  (mkAgent false (lastProcessedMessageId ag), w1).
Proof.
  cbv zeta. intros Hp Hr Hg Hm Hn Ha Hparse.
  assert (E0 : Nat.eqb (List.length msgs) 0 = false)
    by (destruct msgs; [congruence|reflexivity]).
  assert (E1 : Nat.ltb (List.length (newMessagesSince (lastProcessedMessageId ag) msgs)) 2
               = false) by (apply Nat.ltb_ge; exact Hn).
  unfold processRecentConversations. rewrite Hp, Hr. cbn [negb].
  unfold process_body. rewrite (bind_ok _ _ _ _ _ Hg).
  rewrite E0. lazy beta iota zeta. rewrite E1. lazy beta iota zeta.
  rewrite Ha. lazy beta iota zeta. rewrite Hparse. reflexivity.
Qed.

(** *** Store failures *)

Lemma for_each_stops {A} (f : A -> M unit) xs x ys w w1 e w2 :
  for_each f xs w = (inr tt, w1) -> f x w1 = (inl e, w2) ->
  for_each f (xs ++ x :: ys) w = (inl e, w2).
Proof.
  intros H1 H2. rewrite for_each_app, (bind_ok _ _ _ _ _ H1). cbn [for_each].
  apply bind_inl. exact H2.
Qed.

(* ================================================================== *)
(** * Claims *)

(** C9. For every history, the ChatML prompt is the system block, then
    one role-tagged block (role [user] or [assistant]) per turn of the
    most recent [min 6 n] turns of the history in their order (the older
    turns are dropped), then the new user block, then an open assistant
    tag with no closing marker. *)
Theorem buildChatMLPrompt_recent_six (systemPrompt userMessage : str)
    (history : list Messages.t) :
  exists older recent,
    history = older ++ recent /\
    List.length recent = Nat.min 6 (List.length history) /\
    buildChatMLPrompt systemPrompt userMessage history =
      turn_block (L "system") systemPrompt
      ++ List.concat (map (fun m => turn_block (role_of (Messages.sender m))
                                          (Messages.content m)) recent)
      ++ turn_block (L "user") userMessage
      ++ im_start ++ L "assistant" ++ [nl].
Proof.
  exists (firstn (List.length history - 6) history),
         (slice_last 6 history).
  split; [|split].
  - unfold slice_last. symmetry. apply firstn_skipn.
  - unfold slice_last. rewrite length_skipn. lia.
  - unfold buildChatMLPrompt.
    rewrite (fold_append_concat
               (fun m => turn_block (role_of (Messages.sender m)) (Messages.content m))).
    rewrite <- !app_assoc. reflexivity.
Qed.

(** C6 (counterexample). The text ["null"] is valid JSON, yet the
    parser returns no result: reading [parsed.notes] on [null] throws and
    the [catch] returns [null], instead of four empty arrays. *)
Lemma parseAnalysisResult_null_text :
  JSON_parse (cleanJson_of (L "null")) = Some JNull /\
  parseAnalysisResult (L "null") = None.
Proof. split; vm_compute; reflexivity. Qed.

(** C6 (amended). [parseAnalysisResult] returns no result when the
    cleaned text (trimmed, optional [```json] opener and trailing fence
    removed, trimmed) is not valid JSON or is the JSON value [null]; for
    any other JSON value each of the four keys is its array value when
    that is an array and the empty array otherwise. In particular
    ["not json"] gives no result and [{"notes":"x"}] four empty arrays.
    The function is total: it never throws. *)
Theorem parseAnalysisResult_coerces (rawJson : str) :
  (JSON_parse (cleanJson_of rawJson) = None ->
   parseAnalysisResult rawJson = None) /\
  (JSON_parse (cleanJson_of rawJson) = Some JNull ->
   parseAnalysisResult rawJson = None) /\
  (forall v, JSON_parse (cleanJson_of rawJson) = Some v -> v <> JNull ->
   parseAnalysisResult rawJson =
     Some (Parsed.mk (coerce_key v (L "notes")) (coerce_key v (L "listItems"))
                     (coerce_key v (L "completedGoals"))
                     (coerce_key v (L "mindmapNodes")))) /\
  parseAnalysisResult (L "not json") = None /\
  parseAnalysisResult (J "{'notes':'x'}") = Some (Parsed.mk [] [] [] []).
Proof.
  unfold parseAnalysisResult.
  split; [intros H; rewrite H; reflexivity|].
  split; [intros H; rewrite H; reflexivity|].
  split; [|split; vm_compute; reflexivity].
  intros v H Hv. rewrite H. unfold coerce_key.
  destruct v; try (exfalso; apply Hv; reflexivity); reflexivity.
Qed.

Lemma parseAnalysisResult_coerces_witness :
  JSON_parse (cleanJson_of (J "```json
{'notes': [1], 'mindmapNodes': {}}
```")) =
    Some (JObj [(units (L "notes"), JArr [JNum (L "1")]);
                (units (L "mindmapNodes"), JObj [])]) /\
  parseAnalysisResult (J "```json
{'notes': [1], 'mindmapNodes': {}}
```") = Some (Parsed.mk [JNum (L "1")] [] [] []).
Proof.
  assert (H : JSON_parse (cleanJson_of (J "```json
{'notes': [1], 'mindmapNodes': {}}
```")) =
    Some (JObj [(units (L "notes"), JArr [JNum (L "1")]);
                (units (L "mindmapNodes"), JObj [])])) by (vm_compute; reflexivity).
  split; [exact H|].
  rewrite (proj1 (proj2 (proj2 (parseAnalysisResult_coerces _))) _ H ltac:(discriminate)).
  vm_compute. reflexivity.
Defined.

(** C7 (code bug). [extractSuggestions] takes every bracket token of the
    last line, not only a trailing group: on ["See [this] now"] it returns
    ["this"] while [removeSuggestions] (anchored at the end) leaves the
    text as it is, so the chat reply carries the suggestion ["this"]. *)
Theorem extractSuggestions_unanchored :
  extractSuggestions (L "See [this] now") = [L "this"] /\
  removeSuggestions (L "See [this] now") = L "See [this] now" /\
  finish_generation (L "See [this] now") =
    mkGen (L "See [this] now") (Some [L "this"]).
Proof. repeat split; vm_compute; reflexivity. Qed.

(** C8. [cleanResponse] is, on a non-empty text: removal of the
    [<think>...</think>] blocks (leftmost opening tag, up to the first
    closing tag after it, case-insensitive, then again after it; a text
    with no closing tag is left as it is), then deletion from the first
    remaining [<think>] to the end (after which no [<think>] is left),
    then removal of every [<|im_end|>] and then every [<|im_start|>],
    then each run of [k >= 3] newlines becomes two (shorter runs stay),
    then trimming (no white space at either end). On the spec's input the
    reply is ["Hello there"] with suggestions ["Tell me more"] and
    ["Ask something"]. All stages are total functions. *)
Theorem cleanResponse_stages :
  (forall text, text <> [] ->
     cleanResponse text =
     trim (collapse_newlines 0 (remove_all im_start (remove_all im_end
       (cut_unclosed_think (remove_think_blocks text)))))) /\
  (forall pre o mid c post,
     List.length o = 7%nat -> prefix_ci think_open o = true ->
     List.length c = 8%nat -> prefix_ci think_close c = true ->
     (forall j, (j < List.length pre)%nat ->
        prefix_ci think_open (skipn j (pre ++ o ++ mid ++ c ++ post)) = false) ->
     (forall j, (j < List.length mid)%nat ->
        prefix_ci think_close (skipn j (mid ++ c ++ post)) = false) ->
     remove_think_blocks (pre ++ o ++ mid ++ c ++ post) =
     pre ++ remove_think_blocks post) /\
  (forall s, (forall j, prefix_ci think_close (skipn j s) = false) ->
     remove_think_blocks s = s) /\
  (forall pre rest, prefix_ci think_open rest = true ->
     (forall j, (j < List.length pre)%nat ->
        prefix_ci think_open (skipn j (pre ++ rest)) = false) ->
     cut_unclosed_think (pre ++ rest) = pre) /\
  (forall s j, prefix_ci think_open (skipn j (cut_unclosed_think s)) = false) /\
  (forall tok pre post, (tok = im_end \/ tok = im_start) ->
     (forall j, (j < List.length pre)%nat ->
        prefixb tok (skipn j (pre ++ tok ++ post)) = false) ->
     remove_all tok (pre ++ tok ++ post) = pre ++ remove_all tok post) /\
  (forall k b, match b with c :: _ => char_eqb c nl = false | [] => True end ->
     collapse_newlines 0 (repeat nl k ++ b) =
     (if Nat.leb 3 k then [nl; nl] else repeat nl k) ++ collapse_newlines 0 b) /\
  (forall s,
     match trim s with c :: _ => is_js_space c = false | [] => True end /\
     match rev (trim s) with c :: _ => is_js_space c = false | [] => True end) /\
  remove_think_blocks (L "<THINK>a</Think>b<think>c") = L "b<think>c" /\
  finish_generation
    (L "<think>reasoning here</think>Hello there [Tell me more] [Ask something]") =
    mkGen (L "Hello there") (Some [L "Tell me more"; L "Ask something"]).
Proof.
  split; [intros [|c r] H; [congruence|reflexivity]|].
  split; [exact remove_think_blocks_block|].
  split; [exact remove_think_blocks_no_close|].
  split; [exact cut_unclosed_think_at|].
  split; [exact cut_unclosed_think_no_open|].
  split.
  { intros tok pre post Htok. apply remove_all_token.
    destruct Htok as [-> | ->]; discriminate. }
  split; [exact collapse_newlines_block|].
  split; [exact trim_ends|].
  split; vm_compute; reflexivity.
Qed.

Lemma cleanResponse_stages_witness :
  remove_think_blocks (L "a" ++ L "<Think>" ++ L "r" ++ L "</THINK>" ++ L "b") =
  L "a" ++ remove_think_blocks (L "b").
Proof.
  apply (proj1 (proj2 cleanResponse_stages)).
  - reflexivity.
  - vm_compute; reflexivity.
  - reflexivity.
  - vm_compute; reflexivity.
  - intros j Hj. destruct j as [|j]; [vm_compute; reflexivity|simpl in Hj; lia].
  - intros j Hj. destruct j as [|j]; [vm_compute; reflexivity|simpl in Hj; lia].
Defined.

(** C10. Applying an analysis result only adds rows and bumps goals: the
    user profile and messages are untouched; the notes, list containers,
    list entries and mindmap facts present before are still there,
    unchanged and in place, with any new rows after them; and every goal
    row keeps its id, title, cadence, target and creation time, with a
    streak counter that does not go down. This holds whether the apply
    completes or stops on a store failure. *)
Theorem applyAnalysisResults_frame (a : Analysis.t) (w : World) :
  frame w (snd (applyAnalysisResults a w)).
Proof. apply frame_applyAnalysisResults. Qed.

(** C5. Applying a completedGoals entry. The goal searched for is the
    first, in the store's order, whose title matches the entry's title
    by bidirectional case-insensitive substring. When one is found (it is
    a row of the table) and the step completes, the rows with its id get
    a streak one higher and the current clock as last-completed date,
    every other field and every other row unchanged. When none is found
    the goal table is exactly as before (no row added or changed). With a
    working store the step completes. *)
Theorem apply_goal_spec (gc : GoalCompletion.t) (w : World) :
  match find (goal_match gc) (order_desc Goals.created_at (goals w)) with
  | Some g =>
      In g (goals w) /\
      (fst (apply_goal gc w) = inr tt ->
       Forall2 (goal_after (Goals.id g) (clock w)) (goals w)
         (goals (snd (apply_goal gc w))))
  | None => goals (snd (apply_goal gc w)) = goals w
  end /\
  (faults w = [] -> fst (apply_goal gc w) = inr tt).
Proof.
  split; [|apply apply_goal_completes].
  destruct (find (goal_match gc) _) as [g|] eqn:Hf.
  - split.
    + eapply in_sort_by, find_some_in; eauto.
    + now apply apply_goal_found.
  - now apply apply_goal_not_found.
Qed.

(** The title "Groceries" and the name "grocery" do not match: neither
    contains the other, lowercased. *)
Lemma fuzzy_match_groceries_grocery :
  fuzzy_match (L "Groceries") (L "grocery") = false.
Proof. vm_compute. reflexivity. Qed.

(** C3. Applying one {listName, items} group, with a working store. The
    step completes. The container used is the first, in the store's
    order (newest first), whose title matches listName by bidirectional
    case-insensitive substring. When there is one (a row of the table),
    no container is added and the new entries, appended after the
    existing ones, belong to it, are not completed, and have as contents
    the items left after skipping each item that equals, ignoring case,
    an entry of that container present before or inserted before it.
    When there is none, one container is appended with title listName and
    type listName lowercased with whitespace runs turned into one
    underscore, and every item becomes one entry of it, in order.
    Examples: "Weekly Groceries" matches "groceries"; ["Milk";"milk"]
    against no entries inserts "Milk" only (also in a full run on a store
    holding an empty "Weekly Groceries" list); "Weekly  Shop" gives type
    "weekly_shop". *)
Theorem apply_list_group_spec (g : ListGroup.t) (w : World) (Hw : faults w = []) :
  let w' := snd (apply_list_group g w) in
  let nid := next_id (map Lists.id (lists w)) in
  fst (apply_list_group g w) = inr tt /\
  match find (list_match g) (order_desc Lists.created_at (lists w)) with
  | Some t =>
      In t (lists w) /\ lists w' = lists w /\
      exists rows, listItems w' = listItems w ++ rows /\
        Forall (fun x => ListItems.list_id x = Lists.id t /\
                         ListItems.is_completed x = false) rows /\
        map ListItems.content rows =
          claimed_inserts (contents_in t (listItems w)) (ListGroup.items g)
  | None =>
      lists w' = lists w ++ [Lists.mk nid (ListGroup.listName g)
                               (list_type_of (ListGroup.listName g)) (clock w)] /\
      exists rows, listItems w' = listItems w ++ rows /\
        Forall (fun x => ListItems.list_id x = nid /\
                         ListItems.is_completed x = false) rows /\
        map ListItems.content rows = ListGroup.items g
  end /\
  fuzzy_match (L "Weekly Groceries") (L "groceries") = true /\
  claimed_inserts [] [L "Milk"; L "milk"] = [L "Milk"] /\
  map ListItems.content (listItems (snd (apply_list_group milk_group groceries_world)))
    = [L "Milk"] /\
  list_type_of (L "Weekly  Shop") = L "weekly_shop".
Proof.
  cbv zeta.
  assert (Ex : fuzzy_match (L "Weekly Groceries") (L "groceries") = true /\
    claimed_inserts [] [L "Milk"; L "milk"] = [L "Milk"] /\
    map ListItems.content
      (listItems (snd (apply_list_group milk_group groceries_world))) = [L "Milk"] /\
    list_type_of (L "Weekly  Shop") = L "weekly_shop")
    by (vm_compute; repeat split).
  destruct (find (list_match g) (order_desc Lists.created_at (lists w)))
    as [t|] eqn:Hf.
  - rewrite (apply_list_group_found g w t Hw Hf).
    destruct (add_to_existing_loop t (ListGroup.items g) w Hw)
      as (H1 & _ & H3 & rows & H4 & H5 & H6).
    split; [exact H1|]. split; [|exact Ex].
    split; [eapply in_sort_by, find_some_in; eauto|].
    split; [exact H3|]. exists rows. auto.
  - rewrite (apply_list_group_not_found g w Hw Hf).
    destruct (add_new_loop (next_id (map Lists.id (lists w))) (ListGroup.items g)
                (set_lists (lists w ++
                   [Lists.mk (next_id (map Lists.id (lists w))) (ListGroup.listName g)
                      (list_type_of (ListGroup.listName g)) (clock w)]) w) Hw)
      as (H1 & _ & H3 & rows & H4 & H5 & H6).
    split; [exact H1|]. split; [|exact Ex].
    split; [exact H3|]. exists rows. auto.
Qed.

Lemma apply_list_group_spec_witness :
  faults groceries_world = [] /\
  fst (apply_list_group milk_group groceries_world) = inr tt.
Proof.
  split; [reflexivity|].
  exact (proj1 (apply_list_group_spec milk_group groceries_world eq_refl)).
Defined.

(** C4, counterexample. The item {label "Loves hiking", category "hobby",
    confidence 0.9} applied in two runs on a working, empty store: each
    run stops on the category CHECK constraint and no fact is stored. *)
Lemma mindmap_other_category_two_runs :
  let w1 := snd (applyAnalysisResults (hiking_result (L "hobby")) (empty_world [])) in
  let w2 := snd (applyAnalysisResults (hiking_result (L "hobby")) w1) in
  fst (applyAnalysisResults (hiking_result (L "hobby")) (empty_world [])) =
    inl (ConstraintFailed (L "category")) /\
  fst (applyAnalysisResults (hiking_result (L "hobby")) w1) =
    inl (ConstraintFailed (L "category")) /\
  count_label (L "Loves hiking") (mindmapNodes w2) = 0%nat.
Proof. vm_compute. repeat split. Qed.

(** C4, as the code has it. (1) Two runs: let the first run's result
    hold an item with a non-empty label l and a non-empty category, on a
    store with no fact labelled l (ignoring case); if that run's apply
    completes, then after any second run (in particular one applying the
    same item again) exactly one stored fact is labelled l. (2) A
    completed step on an item with label l and category c present skips
    when a fact labelled l (ignoring case) exists, and otherwise appends
    one fact with label l, category c and [confidence_or_default] of the
    item's confidence, which is 0.8 when absent or 0 and the given value
    otherwise. (3) With a working store the step completes when the
    category is one of values, goals, personality, facts; a new label
    with any other category is refused by the store's CHECK constraint,
    nothing is stored and the error is raised to the caller. *)
Theorem mindmap_dedup_spec :
  (forall (a1 a2 : Analysis.t) (w0 w1 : World) (n : NodeIn.t) (l c : str),
     In n (Analysis.mindmapNodes a1) ->
     NodeIn.label n = Some l -> NodeIn.category n = Some c -> l <> [] -> c <> [] ->
     count_label l (mindmapNodes w0) = 0%nat ->
     applyAnalysisResults a1 w0 = (inr tt, w1) ->
     count_label l (mindmapNodes (snd (applyAnalysisResults a2 w1))) = 1%nat) /\
  (forall (n : NodeIn.t) (w : World) (l c : str),
     NodeIn.label n = Some l -> NodeIn.category n = Some c -> l <> [] -> c <> [] ->
     fst (apply_node n w) = inr tt ->
     mindmapNodes (snd (apply_node n w)) =
       if has_label l (mindmapNodes w) then mindmapNodes w
       else mindmapNodes w ++ [node_row n w l c]) /\
  confidence_or_default None = (4 # 5)%Q /\
  confidence_or_default (Some 0%Q) = (4 # 5)%Q /\
  (forall q, ~ (q == 0)%Q -> confidence_or_default (Some q) = q) /\
  (forall (n : NodeIn.t) (w : World) (l c : str),
     NodeIn.label n = Some l -> NodeIn.category n = Some c -> l <> [] -> c <> [] ->
     faults w = [] ->
     (valid_category c = true -> fst (apply_node n w) = inr tt) /\
     (valid_category c = false -> has_label l (mindmapNodes w) = false ->
      apply_node n w = (inl (ConstraintFailed (L "category")), w))).
Proof.
  split; [|split; [|split; [reflexivity|split; [reflexivity|split]]]].
  - intros a1 a2 w0 w1 n l c Hin El Ec Hl Hc H0 Hrun.
    destruct (applyAnalysisResults_nodes_stage _ _ _ Hrun) as [wk Hk].
    destruct (for_each_mem (keeps_label l) apply_node _ n wk w1
                (keeps_label_refl l) (keeps_label_trans l)
                (fun y => preserves_weaken _ _ _ (keeps_label_frame l)
                            (frame_apply_node y)) Hk Hin)
      as (u1 & u2 & Hu & Hkeep).
    pose proof (Hkeep (apply_node_has_label _ _ _ _ _ El Ec Hl Hc Hu)) as Hw1.
    pose proof (keeps_label_frame l _ _ (frame_applyAnalysisResults a2 w1) Hw1)
      as Hw2.
    pose proof (count_label_pos _ _ Hw2) as Hge.
    pose proof (count_le1_applyAnalysisResults l a1 w0) as P1.
    rewrite Hrun in P1. cbn [snd] in P1.
    pose proof (count_le1_applyAnalysisResults l a2 w1) as P2.
    unfold count_le1 in P1, P2. rewrite H0 in P1. lia.
  - intros n w l c El Ec Hl Hc Hok.
    destruct (apply_node_cases n w) as [En | (l' & c' & El' & Ec' & Hd & _ & En)].
    + rewrite En.
      assert (Heq : apply_node n w = (inr tt, snd (apply_node n w))).
      { destruct (apply_node n w) as [r w']; cbn in *; congruence. }
      pose proof (apply_node_has_label n w _ l c El Ec Hl Hc Heq) as Hh.
      rewrite En in Hh. rewrite Hh. reflexivity.
    + rewrite El in El'. injection El' as <-. rewrite Ec in Ec'. injection Ec' as <-.
      rewrite Hd. exact En.
  - intros q Hq. cbn. destruct (Qeq_bool q 0) eqn:E; [|reflexivity].
    apply Qeq_bool_iff in E. contradiction.
  - intros n w l c El Ec Hl Hc Hw.
    rewrite (apply_node_no_fault n w l c El Ec Hl Hc Hw).
    split.
    + intros Hv. destruct (has_label _ _); [reflexivity|]. rewrite Hv. reflexivity.
    + intros Hv Hd. rewrite Hd, Hv. reflexivity.
Qed.

Lemma mindmap_dedup_spec_witness :
  fst (apply_node (hiking_node (L "values")) (empty_world [])) = inr tt.
Proof.
  apply (proj1 (proj2 (proj2 (proj2 (proj2 (proj2 mindmap_dedup_spec))))
           (hiking_node (L "values")) (empty_world []) (L "Loves hiking") (L "values")
           eq_refl eq_refl ltac:(discriminate) ltac:(discriminate) eq_refl)).
  vm_compute. reflexivity.
Defined.

(** C1. The mark [lastProcessedMessageId]: no run lowers it, so along
    any sequence of runs (each with its engine and store) the marks are
    sorted; a run whose apply step completes sets it to the id of the
    last turn of the new turns it analysed (those with an id above the
    mark), whatever the apply did inside; a run whose parse yields no
    result leaves it where it was. *)
Theorem mark_monotone :
  (forall apply llm ag w,
     (lastProcessedMessageId ag <=
      lastProcessedMessageId (fst (processRecentConversations apply llm ag w)))%Z) /\
  (forall apply ag runs,
     Sorted Z.le (map lastProcessedMessageId (ag :: run_all apply ag runs))) /\
  (forall apply llm ag w msgs w1 raw an w2,
     let news := newMessagesSince (lastProcessedMessageId ag) msgs in
     isProcessing ag = false -> isReady llm = true ->
     getAllMessages w = (inr msgs, w1) -> msgs <> [] ->
     (2 <= List.length news)%nat ->
     analyzeConversation llm news = Some raw ->
     parseAnalysisResult raw = Some an ->
     apply an w1 = (inr tt, w2) ->
     processRecentConversations apply llm ag w =
       (mkAgent false (Messages.id (last news dummy_message)), w2)) /\
  (forall apply llm ag w msgs w1 raw,
     let news := newMessagesSince (lastProcessedMessageId ag) msgs in
     isProcessing ag = false -> isReady llm = true ->
     getAllMessages w = (inr msgs, w1) -> msgs <> [] ->
     (2 <= List.length news)%nat ->
     analyzeConversation llm news = Some raw ->
     parseAnalysisResult raw = None ->
     lastProcessedMessageId (fst (processRecentConversations apply llm ag w)) =
       lastProcessedMessageId ag).
Proof.
  split; [exact process_mark_le|].
  split; [intros apply ag runs; apply run_all_sorted|].
  split.
  - intros apply llm ag w msgs w1 raw an w2 news Hp Hr Hg Hm Hn Ha Hparse Happ.
    rewrite (process_run_apply apply llm ag w msgs w1 raw an Hp Hr Hg Hm Hn Ha Hparse).
    rewrite Happ. reflexivity.
  - intros apply llm ag w msgs w1 raw news Hp Hr Hg Hm Hn Ha Hparse.
    rewrite (process_run_no_result apply llm ag w msgs w1 raw Hp Hr Hg Hm Hn Ha Hparse).
    reflexivity.
Qed.

Lemma mark_monotone_witness :
  processRecentConversations (fun _ => ret tt) chat_engine (mkAgent false 0) chat_world =
  (mkAgent false 2, chat_world).
Proof.
  exact (proj1 (proj2 (proj2 mark_monotone)) (fun _ => ret tt) chat_engine
           (mkAgent false 0) chat_world
           (order_asc Messages.timestamp (messages chat_world)) chat_world (L "{}")
           (Parsed.mk [] [] [] []) chat_world
           eq_refl eq_refl eq_refl ltac:(discriminate) ltac:(vm_compute; lia)
           eq_refl ltac:(vm_compute; reflexivity) eq_refl).
Defined.

(** C2, counterexample. Two notes, and a store whose first call fails:
    the apply stops with the error and the second note, whose insert
    would succeed, is never stored. *)
Lemma apply_store_failure_stops :
  fst (applyAnalysisResults two_notes (empty_world [true])) = inl SqliteError /\
  notes (snd (applyAnalysisResults two_notes (empty_world [true]))) = [] /\
  notes (snd (for_each apply_note [NoteIn.mk (Some (L "B")) (Some (L "b"))]
                (empty_world []))) <> [].
Proof. vm_compute. split; [reflexivity|]. split; [reflexivity|discriminate]. Qed.

(** C2, as the code has it. A failing store operation aborts the apply:
    in each of the four loops the failing item ends the loop with its
    error, so no later item of that loop runs, and the error skips every
    later loop (items applied before it stay stored); the run catches
    it, logs it to the console, leaves the mark where it was and clears
    the busy flag. *)
Theorem apply_failure_aborts :
  (forall (A : Type) (f : A -> M unit) xs x ys w w1 e w2,
     for_each f xs w = (inr tt, w1) -> f x w1 = (inl e, w2) ->
     for_each f (xs ++ x :: ys) w = (inl e, w2)) /\
  (forall a w e w',
     for_each apply_note (Analysis.notes a) w = (inl e, w') ->
     applyAnalysisResults a w = (inl e, w')) /\
  (forall a w w1 e w',
     for_each apply_note (Analysis.notes a) w = (inr tt, w1) ->
     for_each apply_list_group (Analysis.listItems a) w1 = (inl e, w') ->
     applyAnalysisResults a w = (inl e, w')) /\
  (forall a w w1 w2 e w',
     for_each apply_note (Analysis.notes a) w = (inr tt, w1) ->
     for_each apply_list_group (Analysis.listItems a) w1 = (inr tt, w2) ->
     for_each apply_goal (Analysis.completedGoals a) w2 = (inl e, w') ->
     applyAnalysisResults a w = (inl e, w')) /\
  (forall a w w1 w2 w3 e w',
     for_each apply_note (Analysis.notes a) w = (inr tt, w1) ->
     for_each apply_list_group (Analysis.listItems a) w1 = (inr tt, w2) ->
     for_each apply_goal (Analysis.completedGoals a) w2 = (inr tt, w3) ->
     for_each apply_node (Analysis.mindmapNodes a) w3 = (inl e, w') ->
     applyAnalysisResults a w = (inl e, w')) /\
  (forall apply llm ag w msgs w1 raw an e w2,
     let news := newMessagesSince (lastProcessedMessageId ag) msgs in
     isProcessing ag = false -> isReady llm = true ->
     getAllMessages w = (inr msgs, w1) -> msgs <> [] ->
     (2 <= List.length news)%nat ->
     analyzeConversation llm news = Some raw ->
     parseAnalysisResult raw = Some an ->
     apply an w1 = (inl e, w2) ->
     processRecentConversations apply llm ag w =
       (mkAgent false (lastProcessedMessageId ag), set_console (console w2 ++ [e]) w2)).
Proof.
  split; [intros A; apply for_each_stops|].
  unfold applyAnalysisResults.
  split; [intros a w e w' H; apply bind_inl; exact H|].
  split.
  { intros a w w1 e w' H1 H2. rewrite (bind_ok _ _ _ _ _ H1). apply bind_inl. exact H2. }
  split.
  { intros a w w1 w2 e w' H1 H2 H3. rewrite (bind_ok _ _ _ _ _ H1).
    rewrite (bind_ok _ _ _ _ _ H2). apply bind_inl. exact H3. }
  split.
  { intros a w w1 w2 w3 e w' H1 H2 H3 H4. rewrite (bind_ok _ _ _ _ _ H1).
    rewrite (bind_ok _ _ _ _ _ H2). rewrite (bind_ok _ _ _ _ _ H3). exact H4. }
  intros apply llm ag w msgs w1 raw an e w2 Hp Hr Hg Hm Hn Ha Hparse Happ.
  rewrite (process_run_apply apply llm ag w msgs w1 raw an Hp Hr Hg Hm Hn Ha Hparse).
  rewrite Happ. reflexivity.
Qed.

Lemma apply_failure_aborts_witness :
  for_each apply_note ([] ++ NoteIn.mk (Some (L "A")) (Some (L "a")) ::
                       [NoteIn.mk (Some (L "B")) (Some (L "b"))]) (empty_world [true]) =
  (inl SqliteError, empty_world []).
Proof.
  exact (proj1 apply_failure_aborts NoteIn.t apply_note []
           (NoteIn.mk (Some (L "A")) (Some (L "a")))
           [NoteIn.mk (Some (L "B")) (Some (L "b"))]
           (empty_world [true]) (empty_world [true]) SqliteError (empty_world [])
           eq_refl ltac:(vm_compute; reflexivity)).
Defined.

Lemma apply_goal_spec_witness :
  fst (apply_goal (GoalCompletion.mk (L "run")) goals_world) = inr tt /\
  find (goal_match (GoalCompletion.mk (L "run")))
    (order_desc Goals.created_at (goals goals_world)) =
    Some (Goals.mk 1 (L "Run 5k") Daily 2 None None 5).
Proof.
  split.
  - exact (proj2 (apply_goal_spec (GoalCompletion.mk (L "run")) goals_world) eq_refl).
  - vm_compute. reflexivity.
Defined.

(* ------------------------------------------------------------------ *)
(** ** More of the code *)

Lemma string_body_quote_unit c r :
  string_body (quote_unit c ++ r) =
  match string_body r with
  | Some (cs, r3) => Some (N_of_ascii c :: cs, r3)
  | None => None
  end.
Proof. destruct c as [[] [] [] [] [] [] [] []]; reflexivity. Qed.

Lemma string_body_quoted s r :
  string_body (List.concat (map quote_unit s) ++ dq :: r) = Some (units s, r).
Proof.
  induction s as [|c s IH]; [reflexivity|].
  simpl List.concat. rewrite <- app_assoc, string_body_quote_unit, IH. reflexivity.
Qed.

Lemma value_quote n s r :
  value (S n) (QuoteJSONString s ++ r) = Some (JStr (units s), r).
Proof.
  unfold QuoteJSONString. rewrite <- app_comm_cons, <- app_assoc. simpl app.
  cbn [value]. simpl json_ws. cbn iota beta. simpl Nat.eqb. cbv iota beta.
  rewrite string_body_quoted. reflexivity.
Qed.

Lemma join_cons sep x l :
  join sep (x :: l) = x ++ match l with [] => [] | _ => sep ++ join sep l end.
Proof. destruct l; simpl; [rewrite app_nil_r|]; reflexivity. Qed.

Lemma json_ws_dq x : json_ws (dq :: x) = dq :: x.
Proof. reflexivity. Qed.

Lemma elements_quoted ts n acc r :
  ts <> [] -> (2 * List.length ts <= n)%nat ->
  elements n (join [","%char] (map QuoteJSONString ts) ++ "]"%char :: r) acc =
  Some (JArr (rev acc ++ map (fun t => JStr (units t)) ts), r).
Proof.
  revert n acc. induction ts as [|t ts IH]; intros n acc Hne Hn; [congruence|].
  destruct n as [|n]; [simpl in Hn; lia|].
  destruct ts as [|t2 ts].
  - simpl join. cbn [elements]. destruct n as [|n]; [simpl in Hn; lia|].
    rewrite value_quote. simpl. reflexivity.
  - change (join [","%char] (map QuoteJSONString (t :: t2 :: ts)))
      with (QuoteJSONString t ++ [","%char] ++ join [","%char] (map QuoteJSONString (t2 :: ts))).
    rewrite <- !app_assoc. cbn [elements]. destruct n as [|n']; [simpl in Hn; lia|].
    rewrite value_quote. simpl json_ws. cbv iota beta. simpl Nat.eqb. cbv iota beta.
    rewrite IH by (discriminate || (simpl in *; lia)).
    simpl. rewrite <- app_assoc. reflexivity.
Qed.

Lemma value_stringify_strings ts n r :
  (2 * List.length ts + 2 <= n)%nat ->
  value n (JSON_stringify_strings ts ++ r) =
  Some (JArr (map (fun t => JStr (units t)) ts), r).
Proof.
  intros Hn. destruct n as [|n]; [lia|].
  unfold JSON_stringify_strings. rewrite <- app_comm_cons, <- app_assoc.
  cbn [value]. simpl json_ws at 1. cbv iota beta. simpl Nat.eqb. cbv iota beta.
  destruct ts as [|t ts].
  - reflexivity.
  - assert (Hz : exists z, join [","%char] (map QuoteJSONString (t :: ts)) ++ "]"%char :: r
                 = dq :: z).
    { rewrite map_cons, join_cons. unfold QuoteJSONString. eexists. simpl. reflexivity. }
    destruct Hz as [z Hz]. rewrite Hz at 1. rewrite json_ws_dq.
    cbv iota beta. simpl Nat.eqb. cbv iota beta.
    rewrite elements_quoted by (discriminate || (simpl in *; lia)). reflexivity.
Qed.

Lemma length_quote s : (2 <= List.length (QuoteJSONString s))%nat.
Proof. unfold QuoteJSONString. simpl. rewrite length_app. simpl. lia. Qed.

Lemma length_join_quoted ts :
  (List.length ts <= List.length (join [","%char] (map QuoteJSONString ts)))%nat.
Proof.
  induction ts as [|t ts IH]; [simpl; lia|].
  rewrite map_cons, join_cons, length_app. pose proof (length_quote t).
  destruct ts; simpl in *; [lia|]. rewrite length_app in *. simpl in *. lia.
Qed.

Lemma JSON_parse_stringify_strings ts :
  JSON_parse (JSON_stringify_strings ts) =
  Some (JArr (map (fun t => JStr (units t)) ts)).
Proof.
  unfold JSON_parse.
  rewrite <- (app_nil_r (JSON_stringify_strings ts)) at 2.
  rewrite value_stringify_strings; [reflexivity|].
  pose proof (length_join_quoted ts). unfold JSON_stringify_strings.
  simpl. rewrite length_app. simpl. lia.
Qed.

Lemma JSON_parse_stringify_options ts :
  JSON_parse (JSON_stringify_options ts) =
  Some (JObj [(units (L "options"), JArr (map (fun t => JStr (units t)) ts))]).
Proof.
  unfold JSON_parse.
  set (n := (2 * List.length (JSON_stringify_options ts) + 2)%nat).
  assert (Hn : (2 * List.length ts + 2 + 3 <= n)%nat).
  { pose proof (length_join_quoted ts). subst n.
    unfold JSON_stringify_options, JSON_stringify_strings.
    simpl. rewrite !length_app. simpl. lia. }
  destruct n as [|[|[|n]]]; [lia|lia|lia|].
  unfold JSON_stringify_options. cbn [value]. simpl json_ws at 1.
  cbv iota beta. simpl Nat.eqb. cbv iota beta.
  rewrite json_ws_dq. cbv iota beta. simpl Nat.eqb. cbv iota beta.
  cbn [members]. rewrite json_ws_dq. cbv iota beta. simpl Nat.eqb. cbv iota beta.
  simpl string_body. cbv iota beta. simpl json_ws. cbv iota beta.
  simpl Nat.eqb. cbv iota beta.
  change ("["%char :: (join [","%char] (map QuoteJSONString ts) ++ ["]"%char]) ++ ["}"%char])
    with (JSON_stringify_strings ts ++ ["}"%char]).
  rewrite value_stringify_strings by lia. reflexivity.
Qed.

Lemma strings_of_units ts :
  strings_of (JArr (map (fun t => JStr (units t)) ts)) = Some ts.
Proof.
  induction ts as [|t ts IH]; [reflexivity|]. simpl in *. rewrite IH.
  unfold units. rewrite map_map.
  erewrite map_ext; [rewrite map_id; reflexivity|]. intros a. apply ascii_N_embedding.
Qed.

(** X3. A list of strings saved with JSON.stringify reads back with
    JSON.parse as the same list, whatever the strings contain (quotes,
    backslashes, control characters, commas or brackets). *)
Lemma traits_json_round_trip traits :
  match JSON_parse (JSON_stringify_strings traits) with
  | Some v => strings_of v
  | None => None
  end = Some traits.
Proof. rewrite JSON_parse_stringify_strings. apply strings_of_units. Qed.

Lemma buildSystemPrompt_or_null name nickname role traits :
  buildSystemPrompt name (or_null nickname) (or_null role) traits =
  buildSystemPrompt name nickname role traits.
Proof. destruct nickname as [[|]|], role as [[|]|]; reflexivity. Qed.

Arguments JSON_parse : simpl never.
Arguments JSON_stringify_strings : simpl never.
Arguments buildSystemPrompt : simpl never.



Lemma onboarding_world w name nickname role ageGroup gender traits :
  lists w = [] -> faults w = [] ->
  let w1 := snd (handleOnboardingComplete name nickname role ageGroup gender traits w) in
  lists w1 = [Lists.mk 1 (L "Groceries") (L "grocery") (clock w);
              Lists.mk 2 (L "To-Do") (L "todo") (clock w);
              Lists.mk 3 (L "Movies to Watch") (L "movies") (clock w)] /\
  faults w1 = [] /\ clock w1 = clock w.
Proof.
  intros Hl Hf. destruct w as [us ms ns ls its gs mms c fs con]; simpl in Hl, Hf; subst.
  unfold handleOnboardingComplete, catch_log, onboarding_body,
    getUser, bind, db_call, get, ret.
  simpl. auto.
Qed.



Lemma fold_max_ge0 l : 0 <= fold_right Z.max 0 l.
Proof. induction l; simpl; lia. Qed.

Lemma fold_max_start a l : 0 <= a ->
  fold_right Z.max a l = Z.max a (fold_right Z.max 0 l).
Proof. intros Ha. induction l as [|x l IH]; simpl; [lia|]. rewrite IH. lia. Qed.

Lemma next_id_snoc l : next_id (l ++ [next_id l]) = next_id l + 1.
Proof.
  unfold next_id. rewrite fold_right_app. cbn [fold_right].
  pose proof (fold_max_ge0 l).
  rewrite Z.max_l by lia. rewrite fold_max_start by lia. lia.
Qed.

Lemma or_null_options s :
  or_null (Some (JSON_stringify_options s)) = Some (JSON_stringify_options s).
Proof. reflexivity. Qed.

Arguments finish_generation : simpl never.
Arguments JSON_stringify_options : simpl never.



(** X5. Toggling the same list item twice restores every list item. *)
Lemma toggleListItem_twice i w :
  faults w = [] ->
  listItems (snd (toggleListItem i (snd (toggleListItem i w)))) = listItems w.
Proof.
  intros Hf. destruct w as [us ms ns ls its gs mms c fs con]; simpl in Hf; subst.
  unfold toggleListItem, bind, db_call, get, put. cbn. rewrite map_map.
  rewrite <- (map_id its) at 2. apply map_ext. intros it.
  destruct (ListItems.id it =? i) eqn:E; cbn; [|rewrite E; reflexivity].
  rewrite E, negb_involutive. destruct it; reflexivity.
Qed.

Lemma toggleListItem_twice_witness :
  listItems (snd (toggleListItem 7 (snd (toggleListItem 7
    (set_listItems [ListItems.mk 7 1 (L "Milk") false 5; ListItems.mk 8 1 (L "Eggs") true 5]
       (empty_world [])))))) =
  [ListItems.mk 7 1 (L "Milk") false 5; ListItems.mk 8 1 (L "Eggs") true 5].
Proof.
  exact (toggleListItem_twice 7
    (set_listItems [ListItems.mk 7 1 (L "Milk") false 5; ListItems.mk 8 1 (L "Eggs") true 5]
       (empty_world [])) eq_refl).
Defined.



Lemma prefixb_refl s : prefixb s s = true.
Proof.
  induction s as [|c s IH]; [reflexivity|]. unfold prefixb; fold prefixb.
  rewrite IH, andb_true_r. apply char_eqb_eq. reflexivity.
Qed.

Lemma fuzzy_match_refl s : fuzzy_match s s = true.
Proof.
  unfold fuzzy_match. destruct (toLowerCase s) as [|c r] eqn:E; [reflexivity|].
  cbn [includes]. rewrite prefixb_refl. reflexivity.
Qed.

(** X7. A goal created in an empty goal table and then completed by a completion with the same title has streak 1 and was last completed now; a target count of 0 is stored as null. *)
Lemma createGoal_then_complete title frequency targetCount w :
  goals w = [] -> faults w = [] ->
  goals (snd (apply_goal (GoalCompletion.mk title)
                (snd (createGoal title frequency targetCount w)))) =
  [Goals.mk 1 title frequency 1 (Some (clock w))
     (match targetCount with
      | Some t => if (t =? 0)%Z then None else Some t
      | None => None
      end) (clock w)].
Proof.
  intros Hg Hf. destruct w as [us ms ns ls its gs mms c fs con]; simpl in Hg, Hf; subst.
  unfold apply_goal, createGoal, getAllGoals, updateGoalStreak, bind, db_call, get,
    put, ret.
  cbn - [fuzzy_match]. rewrite fuzzy_match_refl. reflexivity.
Qed.

Lemma createGoal_then_complete_witness :
  goals (snd (apply_goal (GoalCompletion.mk (L "Run"))
                (snd (createGoal (L "Run") Daily (Some 0) (empty_world []))))) =
  [Goals.mk 1 (L "Run") Daily 1 (Some 100) None 100].
Proof. exact (createGoal_then_complete (L "Run") Daily (Some 0) (empty_world []) eq_refl eq_refl). Defined.

(** *** Substrings *)

Lemma includes_cons c r p : includes (c :: r) p = prefixb p (c :: r) || includes r p.
Proof. reflexivity. Qed.

Lemma includes_app_r x y p : includes y p = true -> includes (x ++ y) p = true.
Proof.
  induction x as [|c x IH]; [auto|]. intros H. simpl app. rewrite includes_cons, IH; auto.
  apply orb_true_r.
Qed.

Lemma includes_app_l x y p : includes x p = true -> includes (x ++ y) p = true.
Proof.
  induction x as [|c x IH]; intros H; [destruct p; [destruct y; reflexivity|discriminate]|].
  simpl app. rewrite includes_cons in *. apply orb_true_iff in H as [H|H].
  - pose proof (prefixb_app p (c :: x) y H) as H2. simpl app in H2. rewrite H2. reflexivity.
  - rewrite IH by exact H. apply orb_true_r.
Qed.

Lemma includes_infix_false a s b p :
  includes (a ++ s ++ b) p = false -> includes s p = false.
Proof.
  intros H. destruct (includes s p) eqn:E; [|reflexivity].
  rewrite <- H. symmetry. apply includes_app_r, includes_app_l, E.
Qed.

Lemma trimStart_suffix s : exists a, s = a ++ trimStart s.
Proof.
  induction s as [|c r [a IH]]; simpl; [exists []; reflexivity|].
  destruct (is_js_space c); [exists (c :: a); simpl; rewrite <- IH|exists []];
    reflexivity.
Qed.

Lemma trim_infix s : exists a b, s = a ++ trim s ++ b.
Proof.
  destruct (trimStart_suffix s) as [a Ha].
  destruct (trimStart_suffix (rev (trimStart s))) as [b Hb].
  exists a, (rev b). unfold trim, trimEnd.
  rewrite Ha at 1. f_equal.
  rewrite <- (rev_involutive (trimStart s)) at 1. rewrite Hb at 1. rewrite rev_app_distr.
  reflexivity.
Qed.

Lemma cut_trailing_chips_prefix s : exists t, s = cut_trailing_chips s ++ t.
Proof.
  induction s as [|c r [t IH]]; simpl; [exists []; reflexivity|].
  destruct (trailing_chips (c :: r)).
  - exists (c :: r); reflexivity.
  - exists t. simpl. rewrite <- IH. reflexivity.
Qed.

(** *** Newline runs never reach three *)

Lemma char_eqb_nl_false c : char_eqb c nl = false -> char_eqb nl c = false.
Proof. intros H. unfold char_eqb in *. rewrite Ascii.eqb_sym. exact H. Qed.

Lemma includes_nl_run k c t :
  (k <= 2)%nat -> char_eqb c nl = false -> includes t nl3 = false ->
  includes (repeat nl k ++ c :: t) nl3 = false.
Proof.
  intros Hk Hc Ht. apply char_eqb_nl_false in Hc.
  assert (H0 : includes (c :: t) nl3 = false).
  { rewrite includes_cons, Ht. unfold nl3, prefixb. rewrite Hc. reflexivity. }
  destruct k as [|[|[|k]]]; [exact H0| | |lia]; simpl repeat; simpl app.
  - rewrite includes_cons, H0. unfold nl3, prefixb. rewrite Hc.
    rewrite andb_false_r. reflexivity.
  - rewrite includes_cons. rewrite includes_cons, H0. unfold nl3, prefixb. rewrite Hc.
    rewrite !andb_false_r. reflexivity.
Qed.

Lemma emit_newlines_short run :
  exists k, (k <= 2)%nat /\ emit_newlines run = repeat nl k.
Proof.
  unfold emit_newlines. destruct (Nat.leb 3 run) eqn:E.
  - exists 2%nat. split; [lia|reflexivity].
  - apply Nat.leb_gt in E. exists run. split; [lia|reflexivity].
Qed.

Lemma includes_emit run : includes (emit_newlines run) nl3 = false.
Proof.
  destruct (emit_newlines_short run) as (k & Hk & ->).
  destruct k as [|[|[|k]]]; [reflexivity|reflexivity|reflexivity|lia].
Qed.

Lemma collapse_newlines_no_run s : forall run,
  includes (collapse_newlines run s) nl3 = false.
Proof.
  induction s as [|c r IH]; intros run; simpl; [apply includes_emit|].
  destruct (char_eqb c nl) eqn:E; [apply IH|].
  destruct (emit_newlines_short run) as (k & Hk & ->).
  apply includes_nl_run; auto.
Qed.

Lemma cleanResponse_no_run raw : includes (cleanResponse raw) nl3 = false.
Proof.
  unfold cleanResponse. destruct raw as [|c r]; [reflexivity|].
  cbv zeta. set (x := collapse_newlines 0 _).
  destruct (trim_infix x) as (a & b & E).
  apply (includes_infix_false a _ b). rewrite <- E. apply collapse_newlines_no_run.
Qed.

(** X8. A reply after cleanResponse and removeSuggestions never contains three consecutive newlines. *)
Lemma finish_generation_no_blank_run raw :
  includes (gen_text (finish_generation raw)) nl3 = false.
Proof.
  unfold finish_generation, removeSuggestions. cbn [gen_text].
  destruct (cut_trailing_chips_prefix (cleanResponse raw)) as [t Ht].
  assert (Hx : includes (cut_trailing_chips (cleanResponse raw)) nl3 = false).
  { apply (includes_infix_false [] _ t). simpl. rewrite <- Ht. apply cleanResponse_no_run. }
  destruct (trim_infix (cut_trailing_chips (cleanResponse raw))) as (a & b & E).
  apply (includes_infix_false a _ b). rewrite <- E. exact Hx.
Qed.

(** *** Chips at the very end *)

Lemma split_at_rbracket_spec s inner rest :
  split_at_rbracket s = Some (inner, rest) -> s = inner ++ rbracket :: rest.
Proof.
  revert inner. induction s as [|c r IH]; intros inner H; simpl in H; [discriminate|].
  destruct (char_eqb c rbracket) eqn:E.
  - injection H as <- <-. apply char_eqb_eq in E. subst. reflexivity.
  - destruct (split_at_rbracket r) as [[i' r']|] eqn:E2; [|discriminate].
    injection H as <- <-. simpl. f_equal. apply IH. reflexivity.
Qed.

Lemma chip_spec s rest : chip s = Some rest -> exists pre, s = pre ++ rbracket :: rest.
Proof.
  unfold chip. destruct s as [|c r]; [discriminate|].
  destruct (char_eqb c lbracket); [|discriminate].
  destruct (split_at_rbracket r) as [[[|x inner] rest']|] eqn:E; try discriminate.
  intros H; injection H as <-. apply split_at_rbracket_spec in E.
  exists (c :: x :: inner). rewrite E. reflexivity.
Qed.

Lemma skip_space_suffix s : exists a, s = a ++ skip_space s.
Proof.
  induction s as [|c r [a IH]]; simpl; [exists []; reflexivity|].
  destruct (is_js_space c); [exists (c :: a); simpl; rewrite <- IH|exists []];
    reflexivity.
Qed.

Lemma ends_rbracket_app a s :
  (exists pre, s = pre ++ [rbracket]) -> exists pre, a ++ s = pre ++ [rbracket].
Proof. intros [pre ->]. exists (a ++ pre). apply app_assoc. Qed.

Lemma chips_to_end_spec f s :
  chips_to_end f s = true -> s = [] \/ exists pre, s = pre ++ [rbracket].
Proof.
  revert s. induction f as [|f IH]; intros s H; (destruct s as [|c r]; [left; reflexivity|]).
  { discriminate H. }
  right. cbn [chips_to_end] in H. destruct (chip (skip_space (c :: r))) as [rest|] eqn:E; [|discriminate].
  destruct (skip_space_suffix (c :: r)) as [a Ha]. rewrite Ha.
  apply ends_rbracket_app. apply chip_spec in E as [pre E]. rewrite E.
  destruct (IH rest H) as [->|Hr]; [exists pre; reflexivity|].
  apply ends_rbracket_app with (a := pre ++ [rbracket]) in Hr.
  rewrite <- app_assoc in Hr. exact Hr.
Qed.

Lemma trailing_exact_spec s : trailing_exact s = true -> exists pre, s = pre ++ [rbracket].
Proof.
  unfold trailing_exact. destruct (chip s) as [rest|] eqn:E; [|discriminate].
  intros H. apply chip_spec in E as [pre ->].
  destruct (chips_to_end_spec _ _ H) as [->|Hr]; [exists pre; reflexivity|].
  apply ends_rbracket_app with (a := pre ++ [rbracket]) in Hr.
  rewrite <- app_assoc in Hr. exact Hr.
Qed.

Lemma has_trailing_exact_spec s :
  has_trailing_exact s = true -> exists pre, s = pre ++ [rbracket].
Proof.
  induction s as [|c r IH]; simpl; [discriminate|].
  intros H. apply orb_true_iff in H as [H|H]; [now apply trailing_exact_spec|].
  apply (ends_rbracket_app [c]). now apply IH.
Qed.

(** X9. parseAIResponse finds no actions and leaves the text unchanged unless the response ends with a closing bracket. *)
Lemma parseAIResponse_needs_closing_bracket response :
  last response " "%char <> "]"%char ->
  parseAIResponse response = (response, []).
Proof.
  intros Hl. unfold parseAIResponse.
  destruct (has_trailing_exact response) eqn:E; [|reflexivity].
  exfalso. apply has_trailing_exact_spec in E as [pre ->].
  rewrite last_last in Hl. apply Hl. reflexivity.
Qed.

Lemma parseAIResponse_needs_closing_bracket_witness :
  last (L "Pick one: [Yes] [No].") " "%char <> "]"%char /\
  parseAIResponse (L "Pick one: [Yes] [No].") = (L "Pick one: [Yes] [No].", []).
Proof.
  split; [discriminate|].
  apply parseAIResponse_needs_closing_bracket. discriminate.
Defined.

(** *** One line per turn *)

Lemma split_nl_single x : ~ In nl x -> split_nl x = [x].
Proof.
  induction x as [|c x IH]; intros H; [reflexivity|]. simpl.
  destruct (char_eqb c nl) eqn:E.
  - apply char_eqb_eq in E. subst. exfalso. apply H. left. reflexivity.
  - rewrite IH; [reflexivity|]. intros Hi. apply H. right. exact Hi.
Qed.

Lemma split_nl_app x y : ~ In nl x -> split_nl (x ++ nl :: y) = x :: split_nl y.
Proof.
  induction x as [|c x IH]; intros H; simpl.
  - reflexivity.
  - destruct (char_eqb c nl) eqn:E.
    + apply char_eqb_eq in E. subst. exfalso. apply H. left. reflexivity.
    + rewrite IH; [reflexivity|]. intros Hi. apply H. right. exact Hi.
Qed.

Lemma transcript_line_no_nl m :
  ~ In nl (Messages.content m) -> ~ In nl (transcript_line m).
Proof.
  intros H Hi. unfold transcript_line in Hi.
  apply in_app_iff in Hi as [Hi|Hi].
  - destruct (Messages.sender m); simpl in Hi; intuition discriminate.
  - simpl in Hi. destruct Hi as [Hi|[Hi|Hi]]; [discriminate|discriminate|exact (H Hi)].
Qed.

(** X10. The transcript given to the analysis prompt has exactly one line per message, [User: ...] or [Vi: ...], when no message contains a newline. *)
Lemma conversationText_lines ms :
  ms <> [] -> Forall (fun m => ~ In nl (Messages.content m)) ms ->
  split_nl (conversationText ms) = map transcript_line ms.
Proof.
  intros Hne Hf. unfold conversationText.
  induction ms as [|m ms IH]; [congruence|].
  inversion Hf as [|? ? Hm Hms]; subst.
  destruct ms as [|m2 ms].
  - simpl. apply split_nl_single, transcript_line_no_nl, Hm.
  - change (join [nl] (map transcript_line (m :: m2 :: ms)))
      with (transcript_line m ++ nl :: join [nl] (map transcript_line (m2 :: ms))).
    rewrite split_nl_app by (apply transcript_line_no_nl, Hm).
    rewrite IH by (discriminate || exact Hms). reflexivity.
Qed.

Lemma conversationText_lines_witness :
  split_nl (conversationText [Messages.mk 1 (L "hi") SUser 10 None;
                              Messages.mk 2 (L "hello") SAssistant 11 None]) =
  [L "User: hi"; L "Vi: hello"].
Proof.
  apply conversationText_lines; [discriminate|].
  repeat constructor; simpl; intuition discriminate.
Defined.

Section Retry.
Variable initLlama : nat -> InitParams -> option Thrown.
Variable modelPath : str.

Lemma retry_loop_success k : forall d r le,
  d = (k - r)%nat -> (r <= k)%nat -> (k < 5)%nat ->
  (forall j, (r <= j < k)%nat -> initLlama j (init_params modelPath j) <> None) ->
  initLlama k (init_params modelPath k) = None ->
  retry_loop initLlama modelPath (5 - r) r le =
  (inr tt, map (init_params modelPath) (seq r (S k - r)),
   map (fun j => 1000 * Z.of_nat (S j)) (seq r (k - r))).
Proof.
  induction d as [|d IH]; intros r le Hd Hr Hk Hfail Hok.
  - assert (r = k) by lia. subst r.
    replace (5 - k)%nat with (S (4 - k)) by lia. cbn [retry_loop].
    replace (Nat.ltb k maxRetries) with true by (symmetry; apply Nat.ltb_lt; unfold maxRetries; lia).
    rewrite Hok. replace (S k - k)%nat with 1%nat by lia. rewrite Nat.sub_diag. reflexivity.
  - replace (5 - r)%nat with (S (5 - S r)) by lia. cbn [retry_loop].
    replace (Nat.ltb r maxRetries) with true by (symmetry; apply Nat.ltb_lt; unfold maxRetries; lia).
    destruct (initLlama r (init_params modelPath r)) as [e|] eqn:E;
      [|exfalso; apply (Hfail r); [lia|exact E]].
    replace (Nat.ltb (S r) maxRetries) with true by (symmetry; apply Nat.ltb_lt; unfold maxRetries; lia).
    rewrite (IH (S r) (Some e)) by (lia || (intros j Hj; apply Hfail; lia) || exact Hok).
    replace (S k - r)%nat with (S (S k - S r)) by lia.
    replace (k - r)%nat with (S (k - S r)) by lia. reflexivity.
Qed.

Lemma retry_loop_fail : forall d r le,
  d = (4 - r)%nat -> (r < 5)%nat ->
  (forall j, (r <= j < 5)%nat -> initLlama j (init_params modelPath j) <> None) ->
  retry_loop initLlama modelPath (5 - r) r le =
  (inl (exit_error (initLlama 4%nat (init_params modelPath 4))),
   map (init_params modelPath) (seq r (5 - r)),
   map (fun j => 1000 * Z.of_nat (S j)) (seq r (4 - r))).
Proof.
  induction d as [|d IH]; intros r le Hd Hr Hfail.
  - assert (r = 4%nat) by lia. subst r. cbn [Nat.sub retry_loop].
    replace (Nat.ltb 4 maxRetries) with true by reflexivity.
    destruct (initLlama 4%nat (init_params modelPath 4)) as [e|] eqn:E;
      [|exfalso; apply (Hfail 4%nat); [lia|exact E]].
    reflexivity.
  - replace (5 - r)%nat with (S (5 - S r)) by lia. cbn [retry_loop].
    replace (Nat.ltb r maxRetries) with true by (symmetry; apply Nat.ltb_lt; unfold maxRetries; lia).
    destruct (initLlama r (init_params modelPath r)) as [e|] eqn:E;
      [|exfalso; apply (Hfail r); [lia|exact E]].
    replace (Nat.ltb (S r) maxRetries) with true by (symmetry; apply Nat.ltb_lt; unfold maxRetries; lia).
    rewrite (IH (S r) (Some e)) by (lia || (intros j Hj; apply Hfail; lia)).
    replace (5 - r)%nat with (S (5 - S r)) by lia.
    replace (4 - r)%nat with (S (4 - S r)) by lia. reflexivity.
Qed.

End Retry.

(** X11. If the first k < 5 attempts to initialize fail and attempt k succeeds, the loop calls initLlama k+1 times, without GPU layers only the first time, waits 1 s, 2 s, ..., k s in between, and succeeds. *)
Lemma initialize_retry_first_success initLlama modelPath k :
  (k < 5)%nat ->
  (forall j, (j < k)%nat -> initLlama j (init_params modelPath j) <> None) ->
  initLlama k (init_params modelPath k) = None ->
  retry_loop initLlama modelPath maxRetries 0 None =
  (inr tt, map (init_params modelPath) (seq 0 (S k)),
   map (fun j => 1000 * Z.of_nat (S j)) (seq 0 k)).
Proof.
  intros Hk Hf Hok. change maxRetries with (5 - 0)%nat.
  rewrite (retry_loop_success initLlama modelPath k (k - 0) 0 None) by
    (lia || (intros j Hj; apply Hf; lia) || exact Hok).
  rewrite !Nat.sub_0_r. reflexivity.
Qed.

Lemma initialize_retry_first_success_witness :
  retry_loop (fun k _ => if Nat.ltb k 2 then Some TOther else None) (L "m") maxRetries 0 None =
  (inr tt, [init_params (L "m") 0; init_params (L "m") 1; init_params (L "m") 2],
   [1000; 2000]).
Proof.
  apply (initialize_retry_first_success _ (L "m") 2); [lia| |reflexivity].
  intros j Hj. apply Nat.ltb_lt in Hj. rewrite Hj. discriminate.
Defined.

(** X12. If all five attempts fail, initLlama is called exactly five times, the loop waits 1 s, 2 s, 3 s and 4 s in between, and throws the fifth attempt's error (or a generic error when that one is falsy); earlier errors are lost. *)
Lemma initialize_retry_all_fail initLlama modelPath :
  (forall j, (j < 5)%nat -> initLlama j (init_params modelPath j) <> None) ->
  retry_loop initLlama modelPath maxRetries 0 None =
  (inl (exit_error (initLlama 4%nat (init_params modelPath 4))),
   map (init_params modelPath) (seq 0 5), [1000; 2000; 3000; 4000]).
Proof.
  intros Hf. change maxRetries with (5 - 0)%nat.
  rewrite (retry_loop_fail initLlama modelPath 4 0 None) by
    (lia || (intros j Hj; apply Hf; lia)).
  reflexivity.
Qed.

Lemma initialize_retry_all_fail_witness :
  retry_loop (fun k _ => if Nat.eqb k 4 then Some (TError (L "e4")) else Some TFalsy)
    (L "m") maxRetries 0 None =
  (inl (TError (L "e4")), map (init_params (L "m")) (seq 0 5), [1000; 2000; 3000; 4000]).
Proof.
  apply initialize_retry_all_fail.
  intros j _. destruct (Nat.eqb j 4); discriminate.
Defined.

Lemma insert_by_last {A} (le : A -> A -> bool) x l :
  (forall y, In y l -> le x y = false) -> insert_by le x l = l ++ [x].
Proof.
  induction l as [|y l IH]; intros H; [reflexivity|]. simpl.
  rewrite H by (left; reflexivity). rewrite IH; [reflexivity|].
  intros z Hz. apply H. right. exact Hz.
Qed.

Lemma order_desc_ascending {A} (key : A -> Z) l :
  StronglySorted (fun a b => key a < key b) l -> order_desc key l = rev l.
Proof.
  unfold order_desc. induction l as [|x l IH]; intros Hs; [reflexivity|].
  inversion Hs as [|? ? Hl Hx]; subst. simpl. rewrite IH by exact Hl.
  apply insert_by_last. intros y Hy. apply in_rev in Hy.
  rewrite Forall_forall in Hx. specialize (Hx y Hy). apply Z.leb_gt. exact Hx.
Qed.

(** X14. When message timestamps strictly increase in insertion order, getRecentMessages(limit) returns the last limit messages oldest first (all of them for a negative limit) and changes nothing. *)
Lemma getRecentMessages_last limit w :
  faults w = [] ->
  StronglySorted (fun a b => Messages.timestamp a < Messages.timestamp b) (messages w) ->
  getRecentMessages limit w =
  (inr (if limit <? 0 then messages w
        else skipn (List.length (messages w) - Z.to_nat limit) (messages w)), w).
Proof.
  intros Hf Hs. destruct w as [us ms ns ls its gs mms c fs con]; simpl in Hf, Hs; subst.
  unfold getRecentMessages, bind, db_call, get, ret. cbn [messages faults].
  rewrite order_desc_ascending by exact Hs.
  destruct (limit <? 0); [rewrite rev_involutive; reflexivity|].
  rewrite firstn_rev, rev_involutive. reflexivity.
Qed.

Lemma getRecentMessages_last_witness :
  getRecentMessages 2 (set_messages
    [Messages.mk 1 (L "a") SUser 10 None; Messages.mk 2 (L "b") SAssistant 11 None;
     Messages.mk 3 (L "c") SUser 12 None] (empty_world [])) =
  (inr [Messages.mk 2 (L "b") SAssistant 11 None; Messages.mk 3 (L "c") SUser 12 None],
   set_messages
    [Messages.mk 1 (L "a") SUser 10 None; Messages.mk 2 (L "b") SAssistant 11 None;
     Messages.mk 3 (L "c") SUser 12 None] (empty_world [])).
Proof.
  rewrite getRecentMessages_last; [reflexivity|reflexivity|].
  repeat constructor; simpl; lia.
Defined.

(** X13. If all five attempts fail and the fifth rejection is falsy, initialize throws the generic message, with no recovery hint, after five calls and four waits. *)
Lemma initialize_falsy_last_error initLlama modelPath :
  (forall j, (j < 5)%nat -> initLlama j (init_params modelPath j) <> None) ->
  initLlama 4%nat (init_params modelPath 4) = Some TFalsy ->
  initialize_tail true true initLlama modelPath =
  (inl (L "Error initializing AI model" ++ [nl]
        ++ L "Original error: Failed to initialize llama.rn after multiple attempts"),
   map (init_params modelPath) (seq 0 5), [1000; 2000; 3000; 4000]).
Proof.
  intros Hf H4. unfold initialize_tail. cbn [negb]. change maxRetries with (5 - 0)%nat.
  rewrite (retry_loop_fail initLlama modelPath 4 0 None) by
    (lia || (intros j Hj; apply Hf; lia)).
  rewrite H4. reflexivity.
Qed.

Lemma initialize_falsy_last_error_witness :
  initialize_tail true true (fun k _ => if Nat.eqb k 4 then Some TFalsy else Some TOther) (L "m") =
  (inl (L "Error initializing AI model" ++ [nl]
        ++ L "Original error: Failed to initialize llama.rn after multiple attempts"),
   map (init_params (L "m")) (seq 0 5), [1000; 2000; 3000; 4000]).
Proof.
  apply initialize_falsy_last_error; [|reflexivity].
  intros j Hj. destruct (Nat.eqb j 4); discriminate.
Defined.
